(** * 24PointGame: the deck builder and shuffler of [js/game.js]

    A shallow embedding of the script and a verification of its
    specification.  The script is twenty lines of JavaScript: it builds
    a 52-card deck from two constant tables, shuffles it with
    [Array.prototype.sort] and a comparator that draws from
    [Math.random], and writes the image paths of the first four cards
    into four elements of the page.

    The file has four layers:
    - [JS]: the parts of the language and of the browser the script
      relies on (template literals, array methods, the random source,
      the engine's sort, the document);
    - [Variant1], [Variant2]: the two versions of the script, each
      translated line by line;
    - the vocabulary of the specification: the enumerations, the asset
      name pattern, what a round may change on the page, and the
      probability of an event under a fair random source;
    - the properties, numbered as in the specification's list of
      claims. *)

From Stdlib Require Import QArith Lqa Ascii DecimalString.
From stdpp Require Import gmap strings list fin_maps.


(* ===================================================================== *)
(** * The language and browser model *)
(* ===================================================================== *)

Module JS.

(** ** Strings *)

(** A template literal [`a${x}b${y}c`] evaluates to the concatenation,
    left to right, of its literal chunks and of the string conversions
    of its substitutions.  The parts are given already converted. *)
Definition template (parts : list string) : string :=
  foldr String.append EmptyString parts.

(** [ToString] on a non-negative integer Number: its decimal digits. *)
Definition Number_toString (n : nat) : string :=
  NilZero.string_of_uint (Nat.to_uint n).

(** ** Arrays as lists *)

(** [Object.entries(o)]: the own enumerable string-keyed properties of
    an object literal, in insertion order.  Objects used as tables are
    association lists in that order. *)
Definition Object_entries {V : Type} (o : list (string * V)) : list (string * V) := o.

Definition Array_map {A B : Type} (f : A -> B) (a : list A) : list B :=
  map f a.

Definition Array_flatMap {A B : Type} (f : A -> list B) (a : list A) : list B :=
  flat_map f a.

(** [a.slice(start, end)] for [0 <= start <= end]; [end] is clamped to
    the length, as [take] does. *)
Definition Array_slice {A : Type} (start fin : nat) (a : list A) : list A :=
  take (fin - start) (drop start a).

(** ** The random source *)

(** The future results of [Math.random()], in call order.  The values
    are the rationals the returned doubles denote.  The script only
    ever looks at the sign of [Math.random() - 0.5]; for a double [r]
    in [[0,1)] the floating-point subtraction has the sign of the exact
    one (it is exact for [r >= 0.25], and rounds inside
    [[-0.5, -0.25]] below that), so exact rational arithmetic loses
    nothing. *)
Definition random_source : Type := nat -> Q.

(** What remains of the source after one call. *)
Definition advance (s : random_source) : random_source := fun n => s (S n).

(** Computations that may call [Math.random]: state passing over the
    source. *)
Definition Rand (A : Type) : Type := random_source -> A * random_source.

#[global] Instance Rand_ret : MRet Rand := fun A a s => (a, s).
#[global] Instance Rand_bind : MBind Rand :=
  fun A B f m s => let (a, s') := m s in f a s'.

Definition Math_random : Rand Q := fun s => (s 0, advance s).

(** The test [order < 0] on a Number. *)
Definition is_negative (order : Q) : bool := negb (Qle_bool 0 order).

(** ** [Array.prototype.sort]

    ECMAScript leaves the sequence of comparator calls to the engine,
    and the resulting order too when the comparator is not a consistent
    one, as here.  The model follows V8 ([third_party/v8/builtins/
    array-sort.tq], TimSort): the receiver is copied into a work array,
    [ArrayTimSortImpl] sorts it, and it is copied back.  For an array of
    fewer than 64 elements [ComputeMinRunLength] is the length itself,
    so the first natural run is extended by binary insertion to the
    whole array and nothing is left to merge.  Loops are written with a
    fuel argument equal to their trip bound; each stops on its own
    condition before the fuel is used up. *)

Section ArraySort.
Context {A : Type} `{!Inhabited A}.
Variable comparefn : A -> A -> Rand Q.

Implicit Types (array : list A) (low high start left right idx : nat).

(** [while (n >= 64) { r |= n & 1; n >>= 1; } return n + r;] *)
Fixpoint ComputeMinRunLength_loop (fuel n r : nat) : nat :=
  match fuel with
  | 0 => n + r
  | S fuel' =>
      if 64 <=? n
      then ComputeMinRunLength_loop fuel' (Nat.shiftr n 1) (Nat.lor r (Nat.land n 1))
      else n + r
  end.

Definition ComputeMinRunLength (n : nat) : nat :=
  ComputeMinRunLength_loop n n 0.

(** [while (low < high) { swap array[low++] and array[high--] }] *)
Fixpoint ReverseRange_loop (fuel : nat) array low high : list A :=
  match fuel with
  | 0 => array
  | S fuel' =>
      if low <? high then
        let elementLow := array !!! low in
        let elementHigh := array !!! high in
        ReverseRange_loop fuel'
          (<[high := elementLow]> (<[low := elementHigh]> array))
          (low + 1) (high - 1)
      else array
  end.

Definition ReverseRange array (from to : nat) : list A :=
  ReverseRange_loop (to - from) array from (to - 1).

(** The scan of [CountAndMakeRun]: from [idx], extend the run while
    the order of consecutive elements agrees with [isDescending]. *)
Fixpoint CountAndMakeRun_loop (fuel : nat) (isDescending : bool) array
    (previousElement : A) idx high (runLength : nat) : Rand nat :=
  match fuel with
  | 0 => mret runLength
  | S fuel' =>
      if idx <? high then
        let currentElement := array !!! idx in
        order ← comparefn currentElement previousElement;
        if isDescending then
          if negb (is_negative order) then mret runLength
          else CountAndMakeRun_loop fuel' isDescending array
                 currentElement (idx + 1) high (runLength + 1)
        else
          if is_negative order then mret runLength
          else CountAndMakeRun_loop fuel' isDescending array
                 currentElement (idx + 1) high (runLength + 1)
      else mret runLength
  end.

(** Length of the run starting at [lowArg]; a strictly descending run
    is reversed in place.  Returns the array and the run length. *)
Definition CountAndMakeRun array (lowArg high : nat) : Rand (list A * nat) :=
  let low := lowArg + 1 in
  if low =? high then mret (array, 1)
  else
    let elementLow := array !!! low in
    let elementHigh := array !!! (low - 1) in
    order ← comparefn elementLow elementHigh;
    let isDescending := is_negative order in
    runLength ← CountAndMakeRun_loop (high - (low + 1)) isDescending array
                   elementLow (low + 1) high 2;
    if isDescending
    then mret (ReverseRange array lowArg (lowArg + runLength), runLength)
    else mret (array, runLength).

(** The binary search of [BinaryInsertionSort]:
    [while (left < right) { mid = left + ((right - left) >> 1); ... }] *)
Fixpoint BinaryInsertionSort_search (fuel : nat) array (pivot : A)
    left right : Rand nat :=
  match fuel with
  | 0 => mret left
  | S fuel' =>
      if left <? right then
        let mid := left + Nat.shiftr (right - left) 1 in
        order ← comparefn pivot (array !!! mid);
        if is_negative order
        then BinaryInsertionSort_search fuel' array pivot left mid
        else BinaryInsertionSort_search fuel' array pivot (mid + 1) right
      else mret left
  end.

(** [for (p = start; p > left; --p) array[p] = array[p - 1];] *)
Fixpoint BinaryInsertionSort_shift (fuel : nat) array (p left : nat) : list A :=
  match fuel with
  | 0 => array
  | S fuel' =>
      if left <? p
      then BinaryInsertionSort_shift fuel' (<[p := array !!! (p - 1)]> array) (p - 1) left
      else array
  end.

(** [for (; start < high; ++start) { insert array[start] into
    array[low .. start) }] *)
Fixpoint BinaryInsertionSort_loop (fuel : nat) array low start high : Rand (list A) :=
  match fuel with
  | 0 => mret array
  | S fuel' =>
      if start <? high then
        let pivot := array !!! start in
        left ← BinaryInsertionSort_search (start - low) array pivot low start;
        let array := BinaryInsertionSort_shift (start - left) array start left in
        let array := <[left := pivot]> array in
        BinaryInsertionSort_loop fuel' array low (start + 1) high
      else mret array
  end.

Definition BinaryInsertionSort array (low startArg high : nat) : Rand (list A) :=
  let start := if low =? startArg then startArg + 1 else startArg in
  BinaryInsertionSort_loop (high - start) array low start high.

(** [ArrayTimSortImpl], first iteration of its run loop.  When
    [ComputeMinRunLength length = length] (every length below 64) the
    forced run is the whole array, [remaining] drops to zero and the
    merge phase has a single run to look at: this is the complete
    sort.  Longer arrays, whose runs are merged, are outside this
    model. *)
Definition ArrayTimSortImpl array : Rand (list A) :=
  let length := length array in
  if length <? 2 then mret array
  else
    let low := 0 in
    let remaining := length in
    let minRunLength := ComputeMinRunLength remaining in
    '(array, currentRunLength) ← CountAndMakeRun array low (low + remaining);
    if currentRunLength <? minRunLength then
      let forcedRunLength := Nat.min minRunLength remaining in
      BinaryInsertionSort array low (low + currentRunLength) (low + forcedRunLength)
    else mret array.

Definition Array_sort array : Rand (list A) := ArrayTimSortImpl array.

End ArraySort.


(** ** The page *)

(** An element is the table of the properties the script can set on it;
    the document maps element ids to elements.  [listeners] are the
    handlers registered with [addEventListener], by element id, event
    type and the name of the script function; [console] is what has been
    logged; [image_requests] are the paths of the detached [Image]
    objects whose [src] was set; [src_writes] records, in order, every
    assignment made through [document.getElementById(id).src = path]. *)
Record world : Type := World {
  random : random_source;
  document : gmap string (gmap string string);
  listeners : list (string * string * string);
  console : list string;
  image_requests : list string;
  src_writes : list (string * string)
}.

Inductive error : Type := TypeError.

Inductive completion : Type :=
| Normal
| Throw (e : error).

(** A statement: runs in a world, completes normally or abruptly. *)
Definition statement : Type := world -> completion * world.

Definition getElementById (id : string) (w : world) : option (gmap string string) :=
  document w !! id.

(** [document.getElementById(id).src = path;]  A missing element makes
    [getElementById] return [null], and setting a property of [null]
    throws a [TypeError]. *)
Definition assign_src (id path : string) : statement := fun w =>
  match getElementById id w with
  | None => (Throw TypeError, w)
  | Some el =>
      (Normal,
       World (random w) (<[id := <["src" := path]> el]> (document w))
             (listeners w) (console w) (image_requests w)
             (src_writes w ++ [(id, path)]))
  end.

(** The listener list of the page with [l] added: a listener already
    registered on the same element for the same event type with the
    same callback is not added a second time. *)
Definition add_listener (l : string * string * string)
    (ls : list (string * string * string)) : list (string * string * string) :=
  if decide (l ∈ ls) then ls else ls ++ [l].

(** [document.getElementById(id).addEventListener(type, fn);] *)
Definition addEventListener (id type fn : string) : statement := fun w =>
  match getElementById id w with
  | None => (Throw TypeError, w)
  | Some _ =>
      (Normal,
       World (random w) (document w) (add_listener (id, type, fn) (listeners w))
             (console w) (image_requests w) (src_writes w))
  end.

(** [console.log(msg);] and [console.error(msg);] *)
Definition console_log (msg : string) : statement := fun w =>
  (Normal,
   World (random w) (document w) (listeners w) (console w ++ [msg])
         (image_requests w) (src_writes w)).

(** [const img = new Image(); img.src = path;] on an image that is not
    part of the document: the browser starts fetching [path]. *)
Definition new_Image_src (path : string) : statement := fun w =>
  (Normal,
   World (random w) (document w) (listeners w) (console w)
         (image_requests w ++ [path]) (src_writes w)).

(** Running a computation that only draws random numbers. *)
Definition draw {A : Type} (m : Rand A) (w : world) : A * world :=
  let (a, s) := m (random w) in
  (a, World s (document w) (listeners w) (console w) (image_requests w)
            (src_writes w)).

(** [s1; s2]: an abrupt completion of [s1] skips [s2]. *)
Definition sequence (s1 s2 : statement) : statement := fun w =>
  match s1 w with
  | (Normal, w') => s2 w'
  | (Throw e, w') => (Throw e, w')
  end.

(** [a.forEach((x, i) => body)], the callback receiving the element and
    its index; the first callback that throws ends the iteration. *)
Fixpoint Array_forEach_from {A : Type} (body : A -> nat -> statement)
    (a : list A) (i : nat) : statement :=
  match a with
  | [] => fun w => (Normal, w)
  | x :: a' => sequence (body x i) (Array_forEach_from body a' (S i))
  end.

Definition Array_forEach {A : Type} (body : A -> nat -> statement)
    (a : list A) : statement :=
  Array_forEach_from body a 0.

End JS.

(* ===================================================================== *)
(** * The script *)
(* ===================================================================== *)

Import JS.

(** The object literal [{ value, suitCode, fileName }] both versions of
    the script build for a card. *)
Record card : Type := Card {
  value : string;
  suitCode : string;
  fileName : string
}.

#[global] Instance card_eq_dec : EqDecision card.
Proof. solve_decision. Defined.

#[global] Instance card_inhabited : Inhabited card :=
  populate (Card EmptyString EmptyString EmptyString).

(** ** First version *)

Module Variant1.

Definition CARD_VALUES : list string :=
  ["A"; "2"; "3"; "4"; "5"; "6"; "7"; "8"; "9"; "10"; "J"; "Q"; "K"].

Definition CARD_SUITS : list (string * string) :=
  [("hearts", "H"); ("diamonds", "D"); ("clubs", "C"); ("spades", "S")].

(** [CARD_VALUES.flatMap(value => Object.entries(CARD_SUITS).map(
      ([suitName, suitCode]) => ({ value, suitCode,
                                   fileName: `${value}${suitCode}.png` })))] *)
Definition fresh_deck : list card :=
  Array_flatMap (fun value =>
    Array_map (fun '(suitName, suitCode) =>
      Card value suitCode (template [value; suitCode; ".png"]))
      (Object_entries CARD_SUITS))
    CARD_VALUES.

(** [() => Math.random() - 0.5] *)
Definition comparefn (a b : card) : Rand Q :=
  r ← Math_random; mret (r - (1 # 2))%Q.

(** [const deck = (...).sort(() => Math.random() - 0.5);] *)
Definition deck : Rand (list card) := Array_sort comparefn fresh_deck.

(** [document.getElementById(`card${i+1}`).src =
      `assets/pictures/${card.fileName}`;] *)
Definition show (card : card) (i : nat) : statement :=
  assign_src (template ["card"; Number_toString (i + 1)])
             (template ["assets/pictures/"; fileName card]).

Definition newGame : statement := fun w =>
  let (deck, w) := draw deck w in
  Array_forEach show (Array_slice 0 4 deck) w.

(** [window.onload = () => { ... };] *)
Definition onload : statement :=
  sequence (addEventListener "new-game-btn" "click" "newGame") newGame.

End Variant1.

(** ** Second version *)

Module Variant2.

Definition CARD_VALUES : list string :=
  ["A"; "2"; "3"; "4"; "5"; "6"; "7"; "8"; "9"; "10"; "J"; "Q"; "K"].

Definition CARD_SUITS : list (string * string) :=
  [("hearts", "H"); ("diamonds", "D"); ("clubs", "C"); ("spades", "S")].

Definition fresh_deck : list card :=
  Array_flatMap (fun value =>
    Array_map (fun '(suitName, suitCode) =>
      Card value suitCode (template [value; suitCode; ".png"]))
      (Object_entries CARD_SUITS))
    CARD_VALUES.

Definition comparefn (a b : card) : Rand Q :=
  r ← Math_random; mret (r - (1 # 2))%Q.

Definition deck : Rand (list card) := Array_sort comparefn fresh_deck.

(** [document.getElementById(`card${i+1}`).src =
      `assets/pictures/classic/${card.fileName}`;] *)
Definition show (card : card) (i : nat) : statement :=
  assign_src (template ["card"; Number_toString (i + 1)])
             (template ["assets/pictures/classic/"; fileName card]).

Definition newGame : statement := fun w =>
  let (deck, w) := draw deck w in
  Array_forEach show (Array_slice 0 4 deck) w.

Definition onload : statement :=
  sequence (addEventListener "new-game-btn" "click" "newGame") newGame.

(** The probe at the end of the file:
    [console.log("Testing image paths:");
     ['AC','AD','AH','AS'].forEach(code => { const img = new Image();
       img.src = `assets/pictures/${code}.png`; ... });] *)
Definition probe (code : string) (i : nat) : statement :=
  new_Image_src (template ["assets/pictures/"; code; ".png"]).

Definition diagnostics : statement :=
  sequence (console_log "Testing image paths:")
      (Array_forEach probe ["AC"; "AD"; "AH"; "AS"]).

(** [img.onload] and [img.onerror] of the probe for [code]. *)
Definition probe_onload (code : string) : statement :=
  console_log (template [code; ".png loads OK"]).

Definition probe_onerror (code : string) : statement :=
  console_log (template [code; ".png FAILED"]).

End Variant2.


(* ===================================================================== *)
(** * Vocabulary of the specification *)
(* ===================================================================== *)

(** The (rank, suitCode) pair that identifies a card. *)
Definition key (c : card) : string * string := (value c, suitCode c).

(** The enumerations as the specification lists them. *)
Definition ranks : list string :=
  ["A"; "2"; "3"; "4"; "5"; "6"; "7"; "8"; "9"; "10"; "J"; "Q"; "K"].

Definition suit_codes : list string := ["H"; "D"; "C"; "S"].

(** The asset name the specification derives from a rank and a suit. *)
Definition deriveAssetName (rank suit : string) : string :=
  rank +:+ suit +:+ ".png".

(** The four cards a round shows: [deck.slice(0, 4)]. *)
Definition selected (s : random_source) : list card :=
  Array_slice 0 4 (Variant1.deck s).1.

(** The display slots, and a page that has them. *)
Definition slot_ids : list string := ["card1"; "card2"; "card3"; "card4"].

Definition has_slots (w : world) : Prop :=
  Forall (fun id => is_Some (document w !! id)) slot_ids.

Definition has_button (w : world) : Prop :=
  is_Some (document w !! "new-game-btn").

(** ** Regular expressions, matched by derivatives *)

Inductive regex : Type :=
| Void
| Eps
| Chr (c : ascii)
| Range (lo hi : ascii)
| Alt (r1 r2 : regex)
| Cat (r1 r2 : regex).

Fixpoint nullable (r : regex) : bool :=
  match r with
  | Void | Chr _ | Range _ _ => false
  | Eps => true
  | Alt r1 r2 => nullable r1 || nullable r2
  | Cat r1 r2 => nullable r1 && nullable r2
  end.

Definition in_range (lo hi a : ascii) : bool :=
  (nat_of_ascii lo <=? nat_of_ascii a) && (nat_of_ascii a <=? nat_of_ascii hi).

Fixpoint deriv (a : ascii) (r : regex) : regex :=
  match r with
  | Void | Eps => Void
  | Chr c => if Ascii.eqb a c then Eps else Void
  | Range lo hi => if in_range lo hi a then Eps else Void
  | Alt r1 r2 => Alt (deriv a r1) (deriv a r2)
  | Cat r1 r2 =>
      if nullable r1
      then Alt (Cat (deriv a r1) r2) (deriv a r2)
      else Cat (deriv a r1) r2
  end.

(** [matches r s]: the whole of [s] is in the language of [r] (the
    pattern anchored with [^] and [$]). *)
Fixpoint matches (r : regex) (s : string) : bool :=
  match s with
  | EmptyString => nullable r
  | String a s' => matches (deriv a r) s'
  end.

Fixpoint Lit (s : string) : regex :=
  match s with
  | EmptyString => Eps
  | String a s' => Cat (Chr a) (Lit s')
  end.

Definition OneOf (rs : list regex) : regex := foldr Alt Void rs.

(** [^(A|[2-9]|10|J|Q|K)[HDCS]\.png$] *)
Definition asset_pattern : regex :=
  Cat (OneOf [Lit "A"; Range "2" "9"; Lit "10"; Lit "J"; Lit "Q"; Lit "K"])
      (Cat (OneOf [Chr "H"; Chr "D"; Chr "C"; Chr "S"])
           (Lit ".png")).

(** ** Writing to the page *)

(** The id [`card${i+1}`] of the slot for the card at index [i]. *)
Definition slot (i : nat) : string := "card" +:+ Number_toString (i + 1).

(** The assignments a display loop over [cards] makes, in order, when
    the first card has index [i] and paths start with [base]. *)
Definition slot_writes (base : string) (i : nat) (cards : list card)
    : list (string * string) :=
  imap (fun j c => (slot (i + j), base +:+ fileName c)) cards.

(** A list of [src] assignments run in order, stopping at the first
    that throws. *)
Fixpoint assign_all (ws : list (string * string)) : statement :=
  match ws with
  | [] => fun w => (Normal, w)
  | (id, path) :: ws' => sequence (assign_src id path) (assign_all ws')
  end.

(** Two elements that differ at most in their [src] property. *)
Definition same_but_src (el el' : gmap string string) : Prop :=
  forall p, p ≠ "src" -> el' !! p = el !! p.

(** [w'] differs from [w] at most in the random source and in the [src]
    of the elements named [ids]: no element appears or disappears, no
    other property changes, nothing is logged, registered or fetched,
    and the assignments recorded since [w] are all to [ids]. *)
Definition frame (ids : list string) (w w' : world) : Prop :=
  listeners w' = listeners w
  ∧ console w' = console w
  ∧ image_requests w' = image_requests w
  ∧ (forall id, id ∉ ids -> document w' !! id = document w !! id)
  ∧ (forall id, option_Forall2 same_but_src (document w !! id) (document w' !! id))
  ∧ exists ws, src_writes w' = src_writes w ++ ws ∧ Forall (fun x => x.1 ∈ ids) ws.

(** The two versions of the script after the same steps from [w0]:
    equal but for the directory in the paths they assigned. *)
Definition same_but_base (base1 base2 : string) (w0 w1 w2 : world) : Prop :=
  random w1 = random w2
  ∧ listeners w1 = listeners w2
  ∧ console w1 = console w2
  ∧ image_requests w1 = image_requests w2
  ∧ (forall id, option_Forall2 same_but_src (document w1 !! id) (document w2 !! id))
  ∧ exists fs : list (string * string),
      src_writes w1 = src_writes w0 ++ ((fun x => (x.1, base1 +:+ x.2)) <$> fs)
      ∧ src_writes w2 = src_writes w0 ++ ((fun x => (x.1, base2 +:+ x.2)) <$> fs).

(** How many of [ids], from the first on, the page has before one is
    missing. *)
Fixpoint leading_present (doc : gmap string (gmap string string))
    (ids : list string) : nat :=
  match ids with
  | [] => 0
  | id :: ids' =>
      if decide (is_Some (doc !! id)) then S (leading_present doc ids') else 0
  end.

(** The page after the assignments [ws]. *)
Definition set_srcs (ws : list (string * string))
    (doc : gmap string (gmap string string)) : gmap string (gmap string string) :=
  foldl (fun d x => alter (insert "src" x.2) x.1 d) doc ws.

(** ** What the page shows *)

(** The [src] of the four slots of a page, in order; [None] for a slot
    the page does not have, or one whose [src] was never set. *)
Definition srcs_on_show (d : gmap string (gmap string string)) : list (option string) :=
  (fun id => el ← d !! id; el !! "src") <$> slot_ids.



(** ** How the shuffle reads the random source *)

(** The comparator answers a negative number exactly when the value
    drawn is below one half. *)
Definition below_half (r : Q) : bool := is_negative (r - (1 # 2))%Q.

(** Two sources whose next [k] draws fall on the same side of one
    half. *)
Definition same_signs_for (k : nat) (s1 s2 : random_source) : Prop :=
  forall n, n < k -> below_half (s1 n) = below_half (s2 n).

(** [s'] is what is left of [s] after some number of calls. *)
Definition later (s s' : random_source) : Prop :=
  exists k, forall n, s' n = s (k + n).

(** ** Sample worlds *)

Definition const_source (q : Q) : random_source := fun _ => q.

(** A page with the four slots and the button, the slots empty. *)
Definition game_page : gmap string (gmap string string) :=
  list_to_map [("card1", ∅); ("card2", ∅); ("card3", ∅); ("card4", ∅);
               ("new-game-btn", ∅)].

(** A page with nothing the script looks for. *)
Definition blank_page : gmap string (gmap string string) := ∅.

(** A page with the four slots but no button. *)
Definition slots_only_page : gmap string (gmap string string) :=
  list_to_map [("card1", ∅); ("card2", ∅); ("card3", ∅); ("card4", ∅)].

Definition fresh_world (s : random_source)
    (page : gmap string (gmap string string)) : world :=
  World s page [] [] [] [].


(** ** A fair random source *)

(** Only the side of one half on which a draw falls matters to the
    shuffle ([deck_same_signs] below), so a random source is drawn as a
    sequence of bits, [true] for a draw below one half. *)
Definition coin_source (bits : nat -> bool) : random_source :=
  fun n => if bits n then (1 # 4)%Q else (3 # 4)%Q.

(** The sequence whose first bit is [b] and whose rest is [bits]. *)
Definition flip_first (b : bool) (bits : nat -> bool) : nat -> bool :=
  fun n => match n with 0 => b | S n' => bits n' end.

Definition bits_of_list (l : list bool) : nat -> bool :=
  foldr flip_first (fun _ => false) l.

(** [Pr N E]: the probability of the event [E] when each of the first
    [N] draws falls below one half with probability one half,
    independently of the others, as with a source uniform on [[0,1)];
    the draws from the [N]-th on are fixed, at or above one half. *)
Fixpoint Pr (N : nat) (E : (nat -> bool) -> bool) : Q :=
  match N with
  | 0 => if E (fun _ => false) then 1%Q else 0%Q
  | S N' =>
      ((1 # 2) * (Pr N' (fun bits => E (flip_first true bits))
                  + Pr N' (fun bits => E (flip_first false bits))))%Q
  end.

(** More draws than one shuffle of the deck makes
    ([deck_reads_shuffle_draws] below). *)
Definition shuffle_draws : nat := 52 * 52.

Definition Prob (E : (nat -> bool) -> bool) : Q := Pr shuffle_draws E.

(** The first card built. *)
Definition ace_of_hearts : card := Card "A" "H" "AH.png".

(** [(1/2)^k] and [n!]. *)
Fixpoint halves (k : nat) : Q :=
  match k with
  | 0 => 1%Q
  | S k' => ((1 # 2) * halves k')%Q
  end.

Fixpoint factorial (n : nat) : positive :=
  match n with
  | 0 => 1%positive
  | S n' => (Pos.of_succ_nat n' * factorial n')%positive
  end.

(** [bits] after the draws [l]. *)
Definition after_draws (l : list bool) (bits : nat -> bool) : nat -> bool :=
  foldr flip_first bits l.

(** The events of the specification. *)
Definition head_is (c : card) (l : list card) : bool :=
  bool_decide (head l = Some c).

Definition first_is (c : card) (bits : nat -> bool) : bool :=
  head_is c (Variant1.deck (coin_source bits)).1.

Definition deck_is (p : list card) (bits : nat -> bool) : bool :=
  bool_decide ((Variant1.deck (coin_source bits)).1 = p).

(** "Each of the 52! permutations is approximately equally likely":
    none more likely than [factor] times [1/52!]. *)
Definition equally_likely_within (factor : Q) : Prop :=
  forall p, p ≡ₚ Variant1.fresh_deck ->
    (Prob (deck_is p) <= factor * (1 # factorial 52))%Q.

(** "Each of the 52 cards appears in the first position with roughly
    uniform frequency": none more often than [factor] times [1/52], nor
    less often than [1/52] over [factor]. *)
Definition first_position_uniform_within (factor : Q) : Prop :=
  forall c, c ∈ Variant1.fresh_deck ->
    ((1 # 52) / factor <= Prob (first_is c) <= factor * (1 # 52))%Q.

(** *** Lower bounds, following the loops of the sort

    The bounds are kept in lowest terms ([Qred]) so that they stay
    small enough to evaluate. *)

(** The binary search over [[left, right)] answers with a position
    other than 0. *)
Fixpoint keep (fuel left right : nat) : Q :=
  match fuel with
  | 0 => if left =? 0 then 0%Q else 1%Q
  | S fuel' =>
      if left <? right then
        let mid := left + Nat.shiftr (right - left) 1 in
        Qred ((1 # 2) * (keep fuel' left mid + keep fuel' (mid + 1) right))
      else if left =? 0 then 0%Q else 1%Q
  end.

(** No insertion from [start] on lands at position 0. *)
Fixpoint stay (fuel start high : nat) : Q :=
  match fuel with
  | 0 => 1%Q
  | S fuel' =>
      if start <? high
      then Qred (keep start 0 start * stay fuel' (start + 1) high)
      else 1%Q
  end.

(** The scan of an ascending run, then [g] of the run length. *)
Fixpoint run_bound (g : nat -> Q) (fuel idx high runLength : nat) : Q :=
  match fuel with
  | 0 => g runLength
  | S fuel' =>
      if idx <? high
      then Qred ((1 # 2) * (g runLength
                            + run_bound g fuel' (idx + 1) high (runLength + 1)))
      else g runLength
  end.

(** After an ascending run of [runLength] cards, the rest of the deck
    is inserted without displacing the first card. *)
Definition stay_after_run (runLength : nat) : Q :=
  if runLength <? 52 then
    let start := if 0 =? runLength then runLength + 1 else runLength in
    stay (52 - start) start 52
  else 1%Q.

(** A sequence of draws that brings the card at index [k] of the deck
    to the front: an ascending run up to it, then an insertion at the
    front (the deck reversed for [k = 1]). *)
Definition front_draws (k : nat) : list bool :=
  resize shuffle_draws false
    match k with
    | 0 => []
    | 1 => [true; false]
    | _ => replicate (k - 1) false ++ replicate (Nat.log2 k + 2) true
    end.



(* ===================================================================== *)
(** * Vocabulary of the proofs about the sort *)
(* ===================================================================== *)

(** [R k s1 s2] relates two random sources for the next [k] calls.
    Two computations agree within [c] calls when, from sources related
    for [c] calls and [k] more, they give the same result and leave
    sources related for the [k] more. *)
Definition agree_within (R : nat -> random_source -> random_source -> Prop)
    (c : nat) {B : Type} (m1 m2 : Rand B) : Prop :=
  forall k s1 s2, R (c + k) s1 s2 ->
    (m1 s1).1 = (m2 s2).1 ∧ R k (m1 s1).2 (m2 s2).2.

(** One insertion step in closed form: the element at [start] moved to
    [left], the elements in between shifted one cell up. *)
Definition inserted {A : Type} `{!Inhabited A} (array : list A)
    (start left : nat) : list A :=
  take left array ++ array !!! start :: drop left (take start array)
    ++ drop (S start) array.

(* ===================================================================== *)
(** * The event loop *)
(* ===================================================================== *)

(** What the browser delivers to the script: the load of the window,
    which it fires once, and clicks on elements of the page. *)
Inductive event : Type :=
| Load
| Click (id : string).

(** Dispatch of an event of [type] on the element [id]: the listeners
    registered for it run in registration order, over the list as it
    stood when the dispatch began.  An exception thrown by a listener
    is reported and the next listener still runs; the completions of
    the listeners that ran are collected. *)
Fixpoint dispatch (call : string -> statement)
    (ls : list (string * string * string)) (id type : string) (w : world)
    : list completion * world :=
  match ls with
  | [] => ([], w)
  | (id', type', fn) :: ls' =>
      if decide (id' = id ∧ type' = type) then
        let (c, w1) := call fn w in
        let (cs, w2) := dispatch call ls' id type w1 in
        (c :: cs, w2)
      else dispatch call ls' id type w
  end.

(** The functions of the first version that are registered as
    listeners, by name. *)
Definition Variant1_call (fn : string) : statement :=
  if decide (fn = "newGame") then Variant1.newGame else fun w => (Normal, w).

Definition Variant1_handle (e : event) (w : world) : list completion * world :=
  match e with
  | Load => let (c, w') := Variant1.onload w in ([c], w')
  | Click id => dispatch Variant1_call (listeners w) id "click" w
  end.

Fixpoint Variant1_run (es : list event) (w : world) : list completion * world :=
  match es with
  | [] => ([], w)
  | e :: es' =>
      let (cs, w1) := Variant1_handle e w in
      let (cs', w2) := Variant1_run es' w1 in
      (cs ++ cs', w2)
  end.

(** The listener the load handler registers. *)
Definition button_listener : string * string * string :=
  ("new-game-btn", "click", "newGame").

(** ** Vocabulary of the further properties *)

(** The random source after [n] rounds, and the cards of the next [n]
    rounds. *)
Fixpoint source_after (n : nat) (s : random_source) : random_source :=
  match n with
  | 0 => s
  | S n' => source_after n' (Variant1.deck s).2
  end.

Fixpoint deals (n : nat) (s : random_source) : list (list card) :=
  match n with
  | 0 => []
  | S n' => selected s :: deals n' (Variant1.deck s).2
  end.

(** The page [d] is the page [d0] with the cards [cs] in the four
    slots, in order, and nothing else changed. *)
Definition shows (d0 d : gmap string (gmap string string)) (cs : list card) : Prop :=
  Forall2 (fun id c =>
             d !! id = insert "src" ("assets/pictures/" +:+ fileName c) <$> d0 !! id)
          slot_ids cs
  ∧ forall id, id ∉ slot_ids -> d !! id = d0 !! id.

(** The page [d] is the page [d0] but for the [src] of the slots. *)
Definition up_to_src (d0 d : gmap string (gmap string string)) : Prop :=
  (forall id, option_Forall2 same_but_src (d0 !! id) (d !! id))
  ∧ forall id, id ∉ slot_ids -> d !! id = d0 !! id.

(** The cards on show after [n] more rounds, [cs] being on show now. *)
Definition shown_after (n : nat) (s : random_source) (cs : list card) : list card :=
  match n with
  | 0 => cs
  | S n' => selected (source_after n' s)
  end.

(** The answers that steer the binary search over [[left, right)] to
    the position [target]: [true] for a comparison answered with a
    negative number. *)
Fixpoint search_draws (fuel left right target : nat) : list bool :=
  match fuel with
  | 0 => []
  | S fuel' =>
      if left <? right then
        let mid := left + Nat.shiftr (right - left) 1 in
        if target <=? mid
        then true :: search_draws fuel' left mid target
        else false :: search_draws fuel' (mid + 1) right target
      else []
  end.

(** A sequence of draws, [true] for one below one half, that brings the
    card at index [k] of the deck to the position [i], for [i < 4]; the
    draws after it are at or above one half.  For [i < k] the scan
    stops at the card, which is then inserted at [i]; for [k < i] the
    [i - k] cards after it are inserted in front of it (for [k = 0], a
    descending run of [i + 1] cards is reversed). *)
Definition slot_draws (k i : nat) : list bool :=
  if k =? i then []
  else if i <? k then
    if k =? 1 then [true; false]
    else replicate (k - 1) false ++ true :: search_draws k 0 k i
  else if k =? 0 then replicate i true ++ [false]
  else replicate k false
       ++ true :: flat_map (fun j => search_draws j 0 j 0) (seq (k + 1) (i - k)).

(** ** Counting the calls of [Math.random] *)

(** The computation [m] makes, on every source, a number of calls that
    satisfies [P] together with the result: the source it leaves is the
    one it was given, that many values on. *)
Definition counted {B : Type} (m : Rand B) (P : B -> nat -> Prop) : Prop :=
  forall s, exists k, P (m s).1 k ∧ forall n, (m s).2 n = s (k + n).

(** The most ([worst = true]) and the fewest comparisons of the binary
    search over [[left, right)], of the insertions from [start] on, and
    of the shuffle of the 52 cards when the scan finds a first run of
    [runLength] cards. *)
Fixpoint search_calls (worst : bool) (fuel left right : nat) : nat :=
  match fuel with
  | 0 => 0
  | S fuel' =>
      if left <? right then
        let mid := left + Nat.shiftr (right - left) 1 in
        S ((if worst then Nat.max else Nat.min)
             (search_calls worst fuel' left mid)
             (search_calls worst fuel' (mid + 1) right))
      else 0
  end.

Fixpoint insertion_calls (worst : bool) (fuel low start high : nat) : nat :=
  match fuel with
  | 0 => 0
  | S fuel' =>
      if start <? high
      then search_calls worst (start - low) low start
           + insertion_calls worst fuel' low (start + 1) high
      else 0
  end.

Definition shuffle_calls (worst : bool) (runLength : nat) : nat :=
  if runLength <? 52
  then runLength + insertion_calls worst (52 - runLength) 0 runLength 52
  else 51.

(** A source that falls on the same sides of one half as [s] and
    returns no value twice, so that the number of calls made on it can
    be read off what is left of it. *)
Definition tagged (s : random_source) : random_source :=
  fun n => if below_half (s n)
           then inject_Z (- Z.of_nat n) else inject_Z (Z.of_nat n + 1).

(** A source whose first value is at or above one half and whose other
    values are below. *)
Definition late_low_source : random_source :=
  fun n => match n with 0 => (3 # 4)%Q | S _ => (1 # 4)%Q end.

(* ===================================================================== *)
(** * The engine's sort on small inputs *)
(* ===================================================================== *)

(** Comparators that ignore the random source. *)
Example ComputeMinRunLength_values :
  ComputeMinRunLength 52 = 52 ∧ ComputeMinRunLength 63 = 63
  ∧ ComputeMinRunLength 64 = 32 ∧ ComputeMinRunLength 65 = 33.
Proof. repeat split; reflexivity. Qed.

(** [[1,2,3].sort(() => 1)] is [[1,2,3]] and [[1,2,3].sort(() => -1)]
    is [[3,2,1]]; [[3,1,2].sort((a, b) => a - b)] is [[1,2,3]]. *)
Example Array_sort_constant_comparators :
  (Array_sort (fun _ _ : nat => mret 1%Q) [1; 2; 3] (fun _ => 0%Q)).1 = [1; 2; 3]
  ∧ (Array_sort (fun _ _ : nat => mret (-1)%Q) [1; 2; 3] (fun _ => 0%Q)).1 = [3; 2; 1]
  ∧ (Array_sort (fun a b : nat => mret (inject_Z (Z.of_nat a) - inject_Z (Z.of_nat b))%Q)
       [3; 1; 2] (fun _ => 0%Q)).1 = [1; 2; 3]
  ∧ (Array_sort (fun a b : nat => mret (inject_Z (Z.of_nat a) - inject_Z (Z.of_nat b))%Q)
       [5; 2; 9; 1; 5; 6; 0; 3] (fun _ => 0%Q)).1 = [0; 1; 2; 3; 5; 5; 6; 9].
Proof. repeat split; reflexivity. Qed.
(* ===================================================================== *)
(** * The engine's sort rearranges, whatever the comparator answers *)
(* ===================================================================== *)

(** Unfold one sequencing step of a [Rand] computation. *)
Ltac rand_unfold :=
  unfold mbind, Rand_bind, mret, Rand_ret in *.

#[local] Arguments Nat.shiftr : simpl never.

Section SortFacts.
Context {A : Type} `{!Inhabited A}.
Variable comparefn : A -> A -> Rand Q.

Implicit Types (array : list A) (s : random_source).

Lemma shiftr_1 (n : nat) : Nat.shiftr n 1 = n / 2.
Proof. rewrite Nat.shiftr_div_pow2. by rewrite Nat.pow_1_r. Qed.

Lemma shiftr_1_lt (n : nat) : 0 < n -> Nat.shiftr n 1 < n.
Proof. intros Hn. rewrite shiftr_1. apply Nat.div_lt; lia. Qed.

Lemma lookup_total_Some array i :
  i < length array -> array !! i = Some (array !!! i).
Proof.
  intros Hi. destruct (lookup_lt_is_Some_2 array i Hi) as [x Hx].
  rewrite Hx. f_equal. symmetry. by apply list_lookup_total_correct.
Qed.

(** Overwriting one cell trades the old element for the new one. *)
Lemma insert_Permutation array i x :
  i < length array -> x :: array ≡ₚ array !!! i :: <[i := x]> array.
Proof.
  intros Hi.
  rewrite (insert_take_drop array i x Hi).
  rewrite <- (take_drop_middle array i (array !!! i)) at 1
    by (by apply lookup_total_Some).
  rewrite <- !Permutation_middle. apply perm_swap.
Qed.

(** Exchanging two cells is a permutation. *)
Lemma swap_Permutation array i j :
  i < length array -> j < length array -> i ≠ j ->
  <[j := array !!! i]> (<[i := array !!! j]> array) ≡ₚ array.
Proof.
  intros Hi Hj Hij.
  pose proof (insert_Permutation array i (array !!! j) Hi) as H1.
  pose proof (insert_Permutation (<[i := array !!! j]> array) j (array !!! i)) as H2.
  rewrite length_insert in H2. specialize (H2 Hj).
  rewrite (list_lookup_total_insert_ne array i j (array !!! j)) in H2 by done.
  apply (Permutation_cons_inv (a := array !!! j)).
  rewrite <- H2. by symmetry.
Qed.

Lemma ReverseRange_loop_Permutation fuel array low high :
  high < length array ->
  ReverseRange_loop fuel array low high ≡ₚ array.
Proof.
  revert array low high. induction fuel as [|fuel IH]; intros array low high Hh;
    simpl; [done|].
  destruct (Nat.ltb_spec low high) as [Hlt|Hge]; [|done].
  rewrite IH by (rewrite !length_insert; lia).
  apply swap_Permutation; lia.
Qed.

Lemma ReverseRange_Permutation array from to :
  to <= length array -> ReverseRange array from to ≡ₚ array.
Proof.
  intros Hto. unfold ReverseRange.
  destruct to as [|to].
  - simpl. done.
  - apply ReverseRange_loop_Permutation. lia.
Qed.

(** The scan only counts: it reports a length between the one it was
    given and the end of the range. *)
Lemma CountAndMakeRun_loop_bounds fuel isDescending array previousElement
    idx high runLength s :
  idx <= high ->
  runLength <= fst (CountAndMakeRun_loop comparefn fuel isDescending array
                      previousElement idx high runLength s)
            <= runLength + (high - idx).
Proof.
  revert previousElement idx runLength s.
  induction fuel as [|fuel IH]; intros prev idx rl s Hidx; simpl.
  - rand_unfold. simpl. lia.
  - destruct (Nat.ltb_spec idx high) as [Hlt|Hge]; rand_unfold; simpl; [|lia].
    destruct (comparefn (array !!! idx) prev s) as [order s1].
    destruct isDescending; destruct (is_negative order); simpl; try lia.
    + specialize (IH (array !!! idx) (idx + 1) (rl + 1) s1). lia.
    + specialize (IH (array !!! idx) (idx + 1) (rl + 1) s1). lia.
Qed.

Lemma CountAndMakeRun_spec array lowArg high s :
  lowArg < high -> high <= length array ->
  let '(array', runLength, _) := CountAndMakeRun comparefn array lowArg high s in
  array' ≡ₚ array ∧ 1 <= runLength <= high - lowArg.
Proof.
  intros Hlow Hhigh. unfold CountAndMakeRun.
  destruct (Nat.eqb_spec (lowArg + 1) high) as [Heq|Hne]; rand_unfold.
  - split; [done|lia].
  - destruct (comparefn _ _ s) as [order s1].
    pose proof (CountAndMakeRun_loop_bounds (high - (lowArg + 1 + 1))
                  (is_negative order) array (array !!! (lowArg + 1))
                  (lowArg + 1 + 1) high 2 s1) as Hb.
    destruct (CountAndMakeRun_loop _ _ _ _ _ _ _ _ s1) as [runLength s2].
    simpl in Hb.
    destruct (is_negative order).
    + split; [|lia]. apply ReverseRange_Permutation. lia.
    + split; [done|lia].
Qed.

(** The binary search answers inside the range it was given. *)
Lemma BinaryInsertionSort_search_bounds fuel array pivot left right s :
  left <= right ->
  left <= fst (BinaryInsertionSort_search comparefn fuel array pivot left right s)
       <= right.
Proof.
  revert left right s. induction fuel as [|fuel IH]; intros left right s Hlr; simpl.
  - rand_unfold. simpl. lia.
  - destruct (Nat.ltb_spec left right) as [Hlt|Hge]; rand_unfold; simpl; [|lia].
    destruct (comparefn pivot _ s) as [order s1].
    assert (Hmid : left + Nat.shiftr (right - left) 1 < right)
      by (pose proof (shiftr_1_lt (right - left)); lia).
    destruct (is_negative order).
    + specialize (IH left (left + Nat.shiftr (right - left) 1) s1). lia.
    + specialize (IH (left + Nat.shiftr (right - left) 1 + 1) right s1). lia.
Qed.

(** Moving [array[left .. p)] one cell up and storing [x] at [left]. *)
Lemma BinaryInsertionSort_shift_insert fuel array p left x :
  left <= p -> p < length array -> p - left <= fuel ->
  <[left := x]> (BinaryInsertionSort_shift fuel array p left)
  = take left array ++ x :: drop left (take p array) ++ drop (S p) array.
Proof.
  revert array p. induction fuel as [|fuel IH]; intros array p Hlp Hp Hfuel; simpl.
  - assert (p = left) by lia. subst p.
    rewrite insert_take_drop by done.
    rewrite (drop_ge (take left array)) by (rewrite length_take; lia). done.
  - destruct (Nat.ltb_spec left p) as [Hlt|Hge].
    + rewrite IH by (rewrite ?length_insert; lia).
      rewrite !take_insert_ge by lia.
      replace (S (p - 1)) with p by lia.
      rewrite drop_insert_ge by lia.
      replace (p - p) with 0 by lia.
      rewrite (drop_S array (array !!! p) p) by (apply lookup_total_Some; lia).
      assert (Htake : take p array = take (p - 1) array ++ [array !!! (p - 1)]).
      { replace p with (S (p - 1)) at 1 by lia.
        apply take_S_r, lookup_total_Some. lia. }
      rewrite Htake.
      rewrite drop_app_le by (rewrite length_take; lia).
      rewrite <- !app_assoc. simpl. done.
    + assert (p = left) by lia. subst p.
      rewrite insert_take_drop by done.
      rewrite (drop_ge (take left array)) by (rewrite length_take; lia). done.
Qed.

Lemma inserted_Permutation array start left :
  left <= start -> start < length array -> inserted array start left ≡ₚ array.
Proof.
  intros Hl Hs. unfold inserted.
  assert (Hsplit : take left array ++ drop left (take start array)
                   = take start array).
  { rewrite <- (take_drop left (take start array)) at 2.
    rewrite take_take. do 2 f_equal. lia. }
  rewrite <- Permutation_middle, app_assoc, Hsplit, Permutation_middle.
  by rewrite take_drop_middle by (by apply lookup_total_Some).
Qed.

Lemma inserted_length array start left :
  left <= start -> start < length array ->
  length (inserted array start left) = length array.
Proof. intros. by rewrite inserted_Permutation. Qed.

Lemma BinaryInsertionSort_loop_Permutation fuel array low start high s :
  low <= start -> high <= length array ->
  fst (BinaryInsertionSort_loop comparefn fuel array low start high s) ≡ₚ array.
Proof.
  revert array start s. induction fuel as [|fuel IH]; intros array start s Hls Hh;
    simpl; [done|].
  destruct (Nat.ltb_spec start high) as [Hlt|Hge]; [|done].
  rand_unfold.
  pose proof (BinaryInsertionSort_search_bounds (start - low) array
                (array !!! start) low start s Hls) as Hb.
  destruct (BinaryInsertionSort_search _ _ _ _ _ _ s) as [left s1]. simpl in Hb.
  rewrite BinaryInsertionSort_shift_insert by lia.
  fold (inserted array start left).
  rewrite IH.
  - apply inserted_Permutation; lia.
  - lia.
  - rewrite inserted_length; lia.
Qed.

(** [Array.prototype.sort] returns a rearrangement of its receiver, for
    every comparator and every behaviour of the random source. *)
Lemma Array_sort_Permutation array s :
  fst (Array_sort comparefn array s) ≡ₚ array.
Proof.
  unfold Array_sort, ArrayTimSortImpl.
  destruct (Nat.ltb_spec (length array) 2) as [Hlt|Hge]; [done|].
  rand_unfold.
  pose proof (CountAndMakeRun_spec array 0 (0 + length array) s) as Hrun.
  destruct (CountAndMakeRun _ _ _ _ s) as [[array' runLength] s1].
  destruct Hrun as [Hperm Hlen]; [lia|lia|].
  destruct (runLength <? _); [|done].
  unfold BinaryInsertionSort. etrans; [|exact Hperm].
  apply BinaryInsertionSort_loop_Permutation; [lia|].
  rewrite (Permutation_length Hperm). lia.
Qed.

End SortFacts.

(** ** No loop of the sort is cut short by its fuel

    Each loop runs the same with any fuel that is at least its trip
    bound, and the callers pass exactly that bound. *)

Section SortFuel.
Context {A : Type} `{!Inhabited A}.
Variable comparefn : A -> A -> Rand Q.

Implicit Types (array : list A) (s : random_source).

Lemma ComputeMinRunLength_loop_fuel fuel fuel' n r :
  n <= fuel -> n <= fuel' ->
  ComputeMinRunLength_loop fuel n r = ComputeMinRunLength_loop fuel' n r.
Proof.
  revert fuel' n r. induction fuel as [|fuel IH]; intros [|fuel'] n r Hf Hf'; cbn [ComputeMinRunLength_loop];
    try done; destruct (Nat.leb_spec 64 n) as [Hn|Hn]; try done; try lia.
  pose proof (shiftr_1_lt n). apply IH; lia.
Qed.

(** Below 64 elements the minimal run is the whole array. *)
Lemma ComputeMinRunLength_small (n : nat) : n < 64 -> ComputeMinRunLength n = n.
Proof.
  intros Hn. unfold ComputeMinRunLength.
  destruct n as [|n]; cbn [ComputeMinRunLength_loop]; [done|].
  rewrite (proj2 (Nat.leb_gt 64 (S n))) by done. lia.
Qed.

Lemma ReverseRange_loop_fuel fuel fuel' array low high :
  high - low <= fuel -> high - low <= fuel' ->
  ReverseRange_loop fuel array low high = ReverseRange_loop fuel' array low high.
Proof.
  revert fuel' array low high.
  induction fuel as [|fuel IH]; intros [|fuel'] array low high Hf Hf'; cbn [ReverseRange_loop];
    try done; destruct (Nat.ltb_spec low high) as [Hlt|Hge]; try done; try lia.
  apply IH; lia.
Qed.

Lemma CountAndMakeRun_loop_fuel fuel fuel' isDescending array prev idx high rl s :
  high - idx <= fuel -> high - idx <= fuel' ->
  CountAndMakeRun_loop comparefn fuel isDescending array prev idx high rl s
  = CountAndMakeRun_loop comparefn fuel' isDescending array prev idx high rl s.
Proof.
  revert fuel' prev idx rl s.
  induction fuel as [|fuel IH]; intros [|fuel'] prev idx rl s Hf Hf'; cbn [CountAndMakeRun_loop];
    try done; destruct (Nat.ltb_spec idx high) as [Hlt|Hge]; try done; try lia.
  rand_unfold. destruct (comparefn _ _ s) as [order s1].
  destruct isDescending; destruct (is_negative order); cbn [negb]; try done;
    apply IH; lia.
Qed.

Lemma BinaryInsertionSort_search_fuel fuel fuel' array pivot left right s :
  right - left <= fuel -> right - left <= fuel' ->
  BinaryInsertionSort_search comparefn fuel array pivot left right s
  = BinaryInsertionSort_search comparefn fuel' array pivot left right s.
Proof.
  revert fuel' left right s.
  induction fuel as [|fuel IH]; intros [|fuel'] left right s Hf Hf'; cbn [BinaryInsertionSort_search];
    try done; destruct (Nat.ltb_spec left right) as [Hlt|Hge]; try done; try lia.
  rand_unfold. destruct (comparefn _ _ s) as [order s1].
  pose proof (shiftr_1_lt (right - left)).
  destruct (is_negative order); apply IH; lia.
Qed.

Lemma BinaryInsertionSort_shift_fuel fuel fuel' array p left :
  p - left <= fuel -> p - left <= fuel' ->
  BinaryInsertionSort_shift fuel array p left
  = BinaryInsertionSort_shift fuel' array p left.
Proof.
  revert fuel' array p.
  induction fuel as [|fuel IH]; intros [|fuel'] array p Hf Hf'; cbn [BinaryInsertionSort_shift];
    try done; destruct (Nat.ltb_spec left p) as [Hlt|Hge]; try done; try lia.
  apply IH; lia.
Qed.

Lemma BinaryInsertionSort_loop_fuel fuel fuel' array low start high s :
  high - start <= fuel -> high - start <= fuel' ->
  BinaryInsertionSort_loop comparefn fuel array low start high s
  = BinaryInsertionSort_loop comparefn fuel' array low start high s.
Proof.
  revert fuel' array start s.
  induction fuel as [|fuel IH]; intros [|fuel'] array start s Hf Hf'; cbn [BinaryInsertionSort_loop];
    try done; destruct (Nat.ltb_spec start high) as [Hlt|Hge]; try done; try lia.
  rand_unfold. destruct (BinaryInsertionSort_search _ _ _ _ _ _ s) as [left s1].
  apply IH; lia.
Qed.

End SortFuel.

(** ** The sort reads the random source only through the signs of the
    comparator's answers, and only so many of them *)

Section SortReads.
Context {A : Type} `{!Inhabited A}.
Variable comparefn : A -> A -> Rand Q.
Variable R : nat -> random_source -> random_source -> Prop.
Hypothesis R_mono : forall k j s1 s2, k <= j -> R j s1 s2 -> R k s1 s2.
Hypothesis comparefn_R : forall a b k s1 s2, R (S k) s1 s2 ->
  is_negative (comparefn a b s1).1 = is_negative (comparefn a b s2).1
  ∧ R k (comparefn a b s1).2 (comparefn a b s2).2.

Lemma agree_ret {B : Type} (b : B) : agree_within R 0 (mret b) (mret b).
Proof. intros k s1 s2 HR. by split. Qed.

Lemma agree_mono {B : Type} (c c' : nat) (m1 m2 : Rand B) :
  c <= c' -> agree_within R c m1 m2 -> agree_within R c' m1 m2.
Proof.
  intros Hc Hm k s1 s2 HR. apply Hm. apply (R_mono _ (c' + k)); [lia|done].
Qed.

Lemma agree_bind {B C : Type} (c1 c2 : nat) (m1 m2 : Rand B) (k1 k2 : B -> Rand C) :
  agree_within R c1 m1 m2 -> (forall b, agree_within R c2 (k1 b) (k2 b)) ->
  agree_within R (c1 + c2) (m1 ≫= k1) (m2 ≫= k2).
Proof.
  intros Hm Hk k s1 s2 HR. rand_unfold.
  replace (c1 + c2 + k) with (c1 + (c2 + k)) in HR by lia.
  destruct (Hm _ s1 s2 HR) as [Hb HR'].
  destruct (m1 s1) as [b1 s1'], (m2 s2) as [b2 s2']. simpl in *. subst b2.
  by apply Hk.
Qed.

Lemma agree_compare {C : Type} (c : nat) a b (k1 k2 : Q -> Rand C) :
  (forall o1 o2, is_negative o1 = is_negative o2 ->
     agree_within R c (k1 o1) (k2 o2)) ->
  agree_within R (S c) (comparefn a b ≫= k1) (comparefn a b ≫= k2).
Proof.
  intros Hk k s1 s2 HR. rand_unfold.
  destruct (comparefn_R a b (c + k) s1 s2 HR) as [Hsign HR'].
  destruct (comparefn a b s1) as [o1 s1'], (comparefn a b s2) as [o2 s2'].
  by apply Hk.
Qed.

Lemma CountAndMakeRun_loop_agree fuel isDescending (array : list A)
    previousElement idx high runLength :
  agree_within R fuel
    (CountAndMakeRun_loop comparefn fuel isDescending array
       previousElement idx high runLength)
    (CountAndMakeRun_loop comparefn fuel isDescending array
       previousElement idx high runLength).
Proof.
  revert previousElement idx runLength.
  induction fuel as [|fuel IH]; intros prev idx rl; simpl; [apply agree_ret|].
  destruct (idx <? high); [|apply (agree_mono 0); [apply Nat.le_0_l|apply agree_ret]].
  apply agree_compare. intros o1 o2 <-.
  destruct isDescending; destruct (is_negative o1); simpl;
    (apply IH || (apply (agree_mono 0); [apply Nat.le_0_l|apply agree_ret])).
Qed.

Lemma CountAndMakeRun_agree (array : list A) lowArg high :
  agree_within R (S (high - (lowArg + 1 + 1)))
    (CountAndMakeRun comparefn array lowArg high)
    (CountAndMakeRun comparefn array lowArg high).
Proof.
  unfold CountAndMakeRun.
  destruct (lowArg + 1 =? high); [apply (agree_mono 0); [apply Nat.le_0_l|apply agree_ret]|].
  apply agree_compare. intros o1 o2 <-.
  apply (agree_mono (high - (lowArg + 1 + 1) + 0)); [lia|].
  apply agree_bind; [apply CountAndMakeRun_loop_agree|].
  intros runLength. destruct (is_negative o1); apply agree_ret.
Qed.

Lemma BinaryInsertionSort_search_agree fuel (array : list A) pivot left right :
  agree_within R fuel
    (BinaryInsertionSort_search comparefn fuel array pivot left right)
    (BinaryInsertionSort_search comparefn fuel array pivot left right).
Proof.
  revert left right.
  induction fuel as [|fuel IH]; intros left right; simpl; [apply agree_ret|].
  destruct (left <? right); [|apply (agree_mono 0); [apply Nat.le_0_l|apply agree_ret]].
  apply agree_compare. intros o1 o2 <-.
  destruct (is_negative o1); apply IH.
Qed.

Lemma BinaryInsertionSort_loop_agree fuel (array : list A) low start high :
  agree_within R (fuel * high)
    (BinaryInsertionSort_loop comparefn fuel array low start high)
    (BinaryInsertionSort_loop comparefn fuel array low start high).
Proof.
  revert array start.
  induction fuel as [|fuel IH]; intros array start; simpl; [apply agree_ret|].
  destruct (Nat.ltb_spec start high) as [Hlt|Hge];
    [|apply (agree_mono 0); [apply Nat.le_0_l|apply agree_ret]].
  apply agree_bind.
  - apply (agree_mono (start - low)); [lia|].
    apply BinaryInsertionSort_search_agree.
  - intros left. apply IH.
Qed.

(** Sorting [n] elements (fewer than 64) calls the comparator at most
    [(n - 1) * (n + 1)] times. *)
Lemma Array_sort_agree (array : list A) :
  agree_within R ((length array - 1) + (length array - 1) * length array)
    (Array_sort comparefn array) (Array_sort comparefn array).
Proof.
  unfold Array_sort, ArrayTimSortImpl.
  destruct (Nat.ltb_spec (length array) 2) as [Hlt|Hge];
    [apply (agree_mono 0); [apply Nat.le_0_l|apply agree_ret]|].
  apply agree_bind.
  - apply (agree_mono (S (0 + length array - (0 + 1 + 1)))); [lia|].
    apply CountAndMakeRun_agree.
  - intros [array' runLength].
    destruct (runLength <? _); [|apply (agree_mono 0); [apply Nat.le_0_l|apply agree_ret]].
    unfold BinaryInsertionSort.
    eapply agree_mono; [|apply BinaryInsertionSort_loop_agree].
    apply Nat.mul_le_mono; destruct (Nat.eqb_spec 0 (0 + runLength)); lia.
Qed.

End SortReads.

(** ** The sort only moves the random source forward *)

Section SortAdvances.
Context {A : Type} `{!Inhabited A}.
Variable comparefn : A -> A -> Rand Q.
Hypothesis comparefn_later : forall a b s, later s (comparefn a b s).2.

Lemma later_refl (s : random_source) : later s s.
Proof. by exists 0. Qed.

Lemma later_trans (s1 s2 s3 : random_source) :
  later s1 s2 -> later s2 s3 -> later s1 s3.
Proof.
  intros [k1 H1] [k2 H2]. exists (k1 + k2). intros n.
  rewrite H2, H1. f_equal. lia.
Qed.

Lemma later_bind {B C : Type} (m : Rand B) (k : B -> Rand C) :
  (forall s, later s (m s).2) -> (forall b s, later s (k b s).2) ->
  forall s, later s ((m ≫= k) s).2.
Proof.
  intros Hm Hk s. rand_unfold. specialize (Hm s).
  destruct (m s) as [b s']. simpl in Hm.
  by apply (later_trans s s'), Hk.
Qed.

Lemma CountAndMakeRun_loop_later fuel isDescending (array : list A)
    previousElement idx high runLength s :
  later s (CountAndMakeRun_loop comparefn fuel isDescending array
             previousElement idx high runLength s).2.
Proof.
  revert previousElement idx runLength s.
  induction fuel as [|fuel IH]; intros prev idx rl; simpl; [apply later_refl|].
  destruct (idx <? high); [|apply later_refl].
  apply later_bind; [apply comparefn_later|].
  intros order. destruct isDescending; destruct (is_negative order); simpl;
    (apply later_refl || apply IH).
Qed.

Lemma CountAndMakeRun_later (array : list A) lowArg high s :
  later s (CountAndMakeRun comparefn array lowArg high s).2.
Proof.
  revert s. unfold CountAndMakeRun.
  destruct (lowArg + 1 =? high); [apply later_refl|].
  apply later_bind; [apply comparefn_later|]. intros order.
  apply later_bind; [apply CountAndMakeRun_loop_later|]. intros runLength.
  destruct (is_negative order); apply later_refl.
Qed.

Lemma BinaryInsertionSort_search_later fuel (array : list A) pivot left right s :
  later s (BinaryInsertionSort_search comparefn fuel array pivot left right s).2.
Proof.
  revert left right s.
  induction fuel as [|fuel IH]; intros left right; simpl; [apply later_refl|].
  destruct (left <? right); [|apply later_refl].
  apply later_bind; [apply comparefn_later|].
  intros order. destruct (is_negative order); apply IH.
Qed.

Lemma BinaryInsertionSort_loop_later fuel (array : list A) low start high s :
  later s (BinaryInsertionSort_loop comparefn fuel array low start high s).2.
Proof.
  revert array start s.
  induction fuel as [|fuel IH]; intros array start; simpl; [apply later_refl|].
  destruct (start <? high); [|apply later_refl].
  apply later_bind; [apply BinaryInsertionSort_search_later|].
  intros left. apply IH.
Qed.

Lemma Array_sort_later (array : list A) s :
  later s (Array_sort comparefn array s).2.
Proof.
  revert s. unfold Array_sort, ArrayTimSortImpl.
  destruct (length array <? 2); [apply later_refl|].
  apply later_bind; [apply CountAndMakeRun_later|].
  intros [array' runLength].
  destruct (runLength <? _); [|apply later_refl].
  apply BinaryInsertionSort_loop_later.
Qed.

End SortAdvances.

(** ** The script's comparator *)

Lemma same_signs_for_mono (k j : nat) (s1 s2 : random_source) :
  k <= j -> same_signs_for j s1 s2 -> same_signs_for k s1 s2.
Proof. intros Hkj Hs n Hn. apply Hs. lia. Qed.

Lemma Variant1_comparefn_same_signs (a b : card) (k : nat) (s1 s2 : random_source) :
  same_signs_for (S k) s1 s2 ->
  is_negative (Variant1.comparefn a b s1).1 = is_negative (Variant1.comparefn a b s2).1
  ∧ same_signs_for k (Variant1.comparefn a b s1).2 (Variant1.comparefn a b s2).2.
Proof.
  intros Hs. split.
  - apply (Hs 0). lia.
  - intros n Hn. apply (Hs (S n)). lia.
Qed.

Lemma Variant1_comparefn_later (a b : card) (s : random_source) :
  later s (Variant1.comparefn a b s).2.
Proof. by exists 1. Qed.

(** The shuffled deck is determined by the sides of one half on which
    the first 2703 draws fall: a shuffle makes no more. *)
Lemma deck_same_signs (s1 s2 : random_source) :
  same_signs_for (51 * 53) s1 s2 -> (Variant1.deck s1).1 = (Variant1.deck s2).1.
Proof.
  intros Hs.
  apply (Array_sort_agree Variant1.comparefn same_signs_for same_signs_for_mono
           Variant1_comparefn_same_signs Variant1.fresh_deck 0 s1 s2).
  by rewrite Nat.add_0_r.
Qed.

Lemma deck_later (s : random_source) : later s (Variant1.deck s).2.
Proof. apply Array_sort_later, Variant1_comparefn_later. Qed.

(* ===================================================================== *)
(** * The deck *)
(* ===================================================================== *)

Example asset_pattern_accepts : matches asset_pattern "10H.png" = true.
Proof. reflexivity. Qed.

Example asset_pattern_rejects :
  matches asset_pattern "1H.png" = false
  ∧ matches asset_pattern "AH.jpg" = false
  ∧ matches asset_pattern "AHH.png" = false
  ∧ matches asset_pattern "ah.png" = false
  ∧ matches asset_pattern "AH.png " = false.
Proof. repeat split; reflexivity. Qed.

Lemma fresh_deck_keys : key <$> Variant1.fresh_deck = list_prod ranks suit_codes.
Proof. reflexivity. Qed.

Lemma fresh_deck_length : length Variant1.fresh_deck = 52.
Proof. reflexivity. Qed.

Lemma fresh_deck_NoDup : NoDup (key <$> Variant1.fresh_deck).
Proof. apply (bool_decide_unpack _). by vm_compute. Qed.

(** C2: the deck built at the start of a round is the cross product of
    the 13 ranks and the 4 suit codes, in rank-major order: 52 cards,
    no pair twice, and each pair of the product carried by exactly one
    card. *)
Theorem fresh_deck_cross_product :
  Variant1.CARD_VALUES = ranks
  ∧ (Object_entries Variant1.CARD_SUITS).*2 = suit_codes
  ∧ length ranks = 13 ∧ length suit_codes = 4
  ∧ length Variant1.fresh_deck = 52
  ∧ key <$> Variant1.fresh_deck = list_prod ranks suit_codes
  ∧ NoDup (key <$> Variant1.fresh_deck)
  ∧ Forall (fun k => length (filter (fun c => key c = k) Variant1.fresh_deck) = 1)
           (list_prod ranks suit_codes)
  ∧ Forall (fun c => key c ∈ list_prod ranks suit_codes) Variant1.fresh_deck.
Proof.
  repeat split; try reflexivity.
  - apply fresh_deck_NoDup.
  - apply (bool_decide_unpack _). by vm_compute.
  - apply (bool_decide_unpack _). by vm_compute.
Qed.

(** * The shuffle *)

Lemma deck_Permutation (s : random_source) :
  (Variant1.deck s).1 ≡ₚ Variant1.fresh_deck.
Proof. apply Array_sort_Permutation. Qed.

Lemma deck_keys_NoDup (s : random_source) :
  NoDup (key <$> (Variant1.deck s).1).
Proof. rewrite (deck_Permutation s). apply fresh_deck_NoDup. Qed.

(** C3: whatever the random source returns, the shuffled deck is a
    permutation of the deck that was built: the same 52 cards, each
    once. *)
Theorem shuffle_Permutation (s : random_source) :
  (Variant1.deck s).1 ≡ₚ Variant1.fresh_deck
  ∧ length (Variant1.deck s).1 = 52
  ∧ NoDup (key <$> (Variant1.deck s).1).
Proof.
  split; [apply deck_Permutation|]. split.
  - by rewrite (deck_Permutation s).
  - apply deck_keys_NoDup.
Qed.

(** The first four cards of the shuffled deck. *)
Lemma selected_first_four (s : random_source) :
  exists c1 c2 c3 c4 rest,
    (Variant1.deck s).1 = c1 :: c2 :: c3 :: c4 :: rest
    ∧ selected s = [c1; c2; c3; c4].
Proof.
  pose proof (Permutation_length (deck_Permutation s)) as Hlen.
  rewrite fresh_deck_length in Hlen. unfold selected.
  destruct (Variant1.deck s).1 as [|c1 [|c2 [|c3 [|c4 rest]]]];
    simpl in Hlen; try lia.
  by exists c1, c2, c3, c4, rest.
Qed.

Lemma selected_in_deck (s : random_source) (c : card) :
  c ∈ selected s -> c ∈ Variant1.fresh_deck.
Proof.
  intros Hc. rewrite <- (deck_Permutation s).
  unfold selected, Array_slice in Hc. rewrite drop_0 in Hc.
  apply elem_of_take in Hc as (i & Hi & _).
  by apply list_elem_of_lookup_2 in Hi.
Qed.

(** * Asset names *)

(** The template literal of the card constructor is the
    specification's derivation, for all strings. *)
Lemma template_deriveAssetName (rank suit : string) :
  template [rank; suit; ".png"] = deriveAssetName rank suit.
Proof. reflexivity. Qed.

(** C4: the asset name of a card is a function of its rank and suit
    code alone, namely rank, then suit code, then ".png": so for every
    card of a shuffled deck, and every pair of the two enumerations
    gives the card with that name. *)
Theorem asset_name_derivation :
  (forall s, Forall (fun c => fileName c = value c +:+ suitCode c +:+ ".png")
                    (Variant1.deck s).1)
  ∧ Forall (fun '(rank, suit) =>
              Card rank suit (rank +:+ suit +:+ ".png") ∈ Variant1.fresh_deck)
           (list_prod Variant1.CARD_VALUES (Object_entries Variant1.CARD_SUITS).*2)
  ∧ (forall rank suit,
       fileName (Card rank suit (template [rank; suit; ".png"]))
       = rank +:+ suit +:+ ".png")
  ∧ Card "A" "H" "AH.png" ∈ Variant1.fresh_deck.
Proof.
  split; [|split; [|split]].
  - intros s. rewrite (deck_Permutation s).
    apply (bool_decide_unpack _). by vm_compute.
  - apply (bool_decide_unpack _). by vm_compute.
  - intros rank suit. apply template_deriveAssetName.
  - apply (bool_decide_unpack _). by vm_compute.
Qed.

Lemma fresh_deck_well_formed :
  Forall (fun c => matches asset_pattern (fileName c) = true) Variant1.fresh_deck.
Proof. apply (bool_decide_unpack _). by vm_compute. Qed.

(** C5: whatever the random source returns, the asset name of each of
    the four selected cards matches
    [^(A|[2-9]|10|J|Q|K)[HDCS]\.png$]. *)
Theorem selected_asset_names_well_formed (s : random_source) :
  length (selected s) = 4
  ∧ Forall (fun c => matches asset_pattern (fileName c) = true) (selected s).
Proof.
  split.
  - by destruct (selected_first_four s) as (c1 & c2 & c3 & c4 & rest & _ & ->).
  - apply Forall_forall. intros c Hc.
    apply selected_in_deck in Hc.
    by apply (proj1 (Forall_forall _ _) fresh_deck_well_formed).
Qed.

(* ===================================================================== *)
(** * The display loop *)
(* ===================================================================== *)

Lemma append_empty_r (s : string) : s +:+ "" = s.
Proof.
  induction s as [|a s IH]; [done|].
  change (String a (s +:+ "") = String a s). by rewrite IH.
Qed.

Lemma Variant1_show_eq (c : card) (i : nat) :
  Variant1.show c i = assign_src (slot i) ("assets/pictures/" +:+ fileName c).
Proof.
  unfold Variant1.show, slot, template. cbn [foldr].
  by rewrite !append_empty_r.
Qed.

Lemma Variant2_show_eq (c : card) (i : nat) :
  Variant2.show c i = assign_src (slot i) ("assets/pictures/classic/" +:+ fileName c).
Proof.
  unfold Variant2.show, slot, template. cbn [foldr].
  by rewrite !append_empty_r.
Qed.

(** A display loop is the list of its assignments. *)
Lemma Array_forEach_from_assign_all (body : card -> nat -> statement)
    (base : string) (cards : list card) (i : nat) (w : world) :
  (forall c j, body c j = assign_src (slot j) (base +:+ fileName c)) ->
  Array_forEach_from body cards i w = assign_all (slot_writes base i cards) w.
Proof.
  intros Hbody. revert i w. induction cards as [|c cards IH]; intros i w; [done|].
  unfold slot_writes. cbn [Array_forEach_from imap assign_all].
  rewrite Hbody. replace (i + 0) with i by lia.
  unfold sequence. destruct (assign_src _ _ w) as [[|e] w']; [|done].
  rewrite IH. unfold slot_writes. f_equal.
  apply imap_ext. intros j c' _. simpl. do 2 f_equal. lia.
Qed.

Lemma slot_writes_ids (base : string) (cards : list card) :
  length cards <= 4 ->
  Forall (fun x => x.1 ∈ slot_ids) (slot_writes base 0 cards).
Proof.
  intros Hlen.
  destruct cards as [|c1 [|c2 [|c3 [|c4 [|c5 cards]]]]]; simpl in Hlen; try lia;
    repeat constructor; simpl; apply (bool_decide_unpack _); by vm_compute.
Qed.

Lemma draw_eq {B : Type} (m : Rand B) (w : world) :
  draw m w = ((m (random w)).1,
              World (m (random w)).2 (document w) (listeners w) (console w)
                    (image_requests w) (src_writes w)).
Proof. unfold draw. by destruct (m (random w)). Qed.

(** Both versions of [newGame], as one list of assignments after the
    shuffle. *)
Lemma Variant1_newGame_eq (w : world) :
  Variant1.newGame w
  = assign_all (slot_writes "assets/pictures/" 0 (selected (random w)))
      (World (Variant1.deck (random w)).2 (document w) (listeners w)
             (console w) (image_requests w) (src_writes w)).
Proof.
  unfold Variant1.newGame. rewrite draw_eq. unfold Array_forEach.
  apply Array_forEach_from_assign_all, Variant1_show_eq.
Qed.

Lemma Variant2_newGame_eq (w : world) :
  Variant2.newGame w
  = assign_all (slot_writes "assets/pictures/classic/" 0 (selected (random w)))
      (World (Variant2.deck (random w)).2 (document w) (listeners w)
             (console w) (image_requests w) (src_writes w)).
Proof.
  unfold Variant2.newGame. rewrite draw_eq. unfold Array_forEach.
  apply Array_forEach_from_assign_all, Variant2_show_eq.
Qed.

(** ** What a list of assignments can change *)

Lemma same_but_src_refl (el : gmap string string) : same_but_src el el.
Proof. by intros p _. Qed.

Lemma same_but_src_trans (el1 el2 el3 : gmap string string) :
  same_but_src el1 el2 -> same_but_src el2 el3 -> same_but_src el1 el3.
Proof. intros H12 H23 p Hp. by rewrite H23, H12. Qed.

Lemma same_but_src_insert_r (el el' : gmap string string) (path : string) :
  same_but_src el el' -> same_but_src el (<["src" := path]> el').
Proof. intros H p Hp. rewrite lookup_insert_ne by done. by apply H. Qed.

Lemma option_same_but_src_refl (o : option (gmap string string)) :
  option_Forall2 same_but_src o o.
Proof. destruct o; constructor. apply same_but_src_refl. Qed.

Lemma frame_refl (ids : list string) (w : world) : frame ids w w.
Proof.
  repeat split; try done.
  - intros id. apply option_same_but_src_refl.
  - exists []. by rewrite app_nil_r.
Qed.

Lemma frame_trans (ids : list string) (w1 w2 w3 : world) :
  frame ids w1 w2 -> frame ids w2 w3 -> frame ids w1 w3.
Proof.
  intros (Hl1 & Hc1 & Hi1 & Hd1 & He1 & ws1 & Hw1 & Hids1)
         (Hl2 & Hc2 & Hi2 & Hd2 & He2 & ws2 & Hw2 & Hids2).
  repeat split; try congruence.
  - intros id Hid. by rewrite Hd2, Hd1.
  - intros id. specialize (He1 id). specialize (He2 id).
    destruct He1 as [el1 el2 H12|]; inversion He2 as [? el3 H23|]; subst;
      constructor.
    by apply (same_but_src_trans el1 el2 el3).
  - exists (ws1 ++ ws2). split.
    + by rewrite Hw2, Hw1, app_assoc.
    + by apply Forall_app.
Qed.

(** One assignment: the random source is untouched, and so is the page
    except for the [src] of the element assigned to. *)
Lemma assign_src_frame (ids : list string) (id path : string) (w : world) :
  id ∈ ids ->
  random (assign_src id path w).2 = random w
  ∧ frame ids w (assign_src id path w).2.
Proof.
  intros Hid. unfold assign_src, getElementById.
  destruct (document w !! id) as [el|] eqn:Hel; simpl.
  - split; [done|]. repeat split; try done; simpl.
    + intros id' Hid'. rewrite lookup_insert_ne; [done|]. by intros ->.
    + intros id'. destruct (decide (id = id')) as [<-|Hne].
      * rewrite lookup_insert_eq, Hel. constructor.
        apply same_but_src_insert_r, same_but_src_refl.
      * rewrite lookup_insert_ne by done. apply option_same_but_src_refl.
    + exists [(id, path)]. split; [done|]. by repeat constructor.
  - split; [done|]. apply frame_refl.
Qed.

Lemma assign_all_frame (ids : list string) (ws : list (string * string)) (w : world) :
  Forall (fun x => x.1 ∈ ids) ws ->
  random (assign_all ws w).2 = random w
  ∧ frame ids w (assign_all ws w).2.
Proof.
  revert w. induction ws as [|[id path] ws IH]; intros w Hids; simpl.
  - split; [done|]. apply frame_refl.
  - inversion Hids as [|? ? Hid Hids']; subst. simpl in Hid.
    destruct (assign_src_frame ids id path w Hid) as [Hr Hf].
    unfold sequence. destruct (assign_src id path w) as [[|e] w1]; simpl in *.
    + destruct (IH w1 Hids') as [Hr' Hf']. split; [congruence|].
      by apply (frame_trans ids w w1).
    + done.
Qed.

(** The assignments made are the first few of the list, in its order:
    all of them when the list completes. *)
Lemma assign_all_writes (ws : list (string * string)) (w : world) :
  exists k,
    src_writes (assign_all ws w).2 = src_writes w ++ take k ws
    ∧ ((assign_all ws w).1 = Normal -> k = length ws).
Proof.
  revert w. induction ws as [|[id path] ws IH]; intros w; simpl.
  - exists 0. by rewrite app_nil_r.
  - unfold sequence, assign_src, getElementById.
    destruct (document w !! id) as [el|]; simpl.
    + match goal with
      | |- context [assign_all ws ?w1] => destruct (IH w1) as (k & Hk & Hall)
      end.
      exists (S k). simpl in Hk. split.
      * by rewrite Hk, <- app_assoc.
      * intros Hn. by rewrite (Hall Hn).
    + exists 0. by rewrite app_nil_r.
Qed.

(** When every element assigned to exists, all assignments are made. *)
Lemma assign_all_present (ws : list (string * string)) (w : world) :
  Forall (fun x => is_Some (document w !! x.1)) ws ->
  assign_all ws w
  = (Normal,
     World (random w)
           (foldl (fun d x => alter (insert "src" x.2) x.1 d) (document w) ws)
           (listeners w) (console w) (image_requests w) (src_writes w ++ ws)).
Proof.
  revert w. induction ws as [|[id path] ws IH]; intros w Hall; simpl.
  - rewrite app_nil_r. by destruct w.
  - inversion Hall as [|? ? [el Hel] Hall']; subst. simpl in Hel.
    unfold sequence, assign_src, getElementById. rewrite Hel.
    rewrite IH; simpl.
    + rewrite (alter_alt_Some _ _ _ _ Hel). by rewrite <- app_assoc.
    + eapply Forall_impl; [exact Hall'|]. intros [id' path'] [el' Hel']; simpl in *.
      destruct (decide (id = id')) as [<-|Hne].
      * rewrite lookup_insert_eq. by eexists.
      * rewrite lookup_insert_ne by done. by eexists.
Qed.

(** The same assignments under two directories. *)
Lemma assign_all_same_but_base (base1 base2 : string)
    (fs : list (string * string)) (w0 w1 w2 : world) :
  same_but_base base1 base2 w0 w1 w2 ->
  (assign_all ((fun x => (x.1, base1 +:+ x.2)) <$> fs) w1).1
  = (assign_all ((fun x => (x.1, base2 +:+ x.2)) <$> fs) w2).1
  ∧ same_but_base base1 base2 w0
      (assign_all ((fun x => (x.1, base1 +:+ x.2)) <$> fs) w1).2
      (assign_all ((fun x => (x.1, base2 +:+ x.2)) <$> fs) w2).2.
Proof.
  revert w1 w2. induction fs as [|[id f] fs IH]; intros w1 w2 Hsim; simpl.
  - by split.
  - destruct Hsim as (Hr & Hl & Hc & Hi & Hd & done_fs & Hw1 & Hw2).
    unfold sequence, assign_src, getElementById.
    pose proof (Hd id) as Hid.
    destruct Hid as [el1 el2 Hel|]; [|by repeat split; try done; exists done_fs].
    apply IH. repeat split; simpl; try done.
    + intros id'. destruct (decide (id = id')) as [<-|Hne].
      * rewrite !lookup_insert_eq. constructor.
        intros p Hp. rewrite !lookup_insert_ne by done. by apply Hel.
      * rewrite !lookup_insert_ne by done. apply Hd.
    + exists (done_fs ++ [(id, f)]).
      rewrite !fmap_app, !app_assoc, <- Hw1, <- Hw2. done.
Qed.

Lemma slot_writes_fmap (base : string) (i : nat) (cards : list card) :
  slot_writes base i cards
  = (fun x => (x.1, base +:+ x.2)) <$> slot_writes "" i cards.
Proof.
  unfold slot_writes. rewrite fmap_imap. by apply imap_ext.
Qed.

(** ** A list of assignments on any page *)

Lemma leading_present_insert (doc : gmap string (gmap string string))
    (id : string) (el : gmap string string) (ids : list string) :
  is_Some (doc !! id) ->
  leading_present (<[id := el]> doc) ids = leading_present doc ids.
Proof.
  intros Hid. induction ids as [|id' ids IH]; simpl; [done|].
  rewrite IH.
  destruct (decide (id = id')) as [<-|Hne].
  - rewrite lookup_insert_eq.
    destruct (decide (is_Some (Some el))) as [_|Hn]; [|by destruct Hn].
    by destruct (decide (is_Some (doc !! id))).
  - by rewrite lookup_insert_ne.
Qed.

(** A list of assignments stops at the first element the page does not
    have. *)
Lemma assign_all_leading (ws : list (string * string)) (w : world) :
  assign_all ws w
  = (if decide (leading_present (document w) ws.*1 = length ws)
     then Normal else Throw TypeError,
     World (random w)
           (set_srcs (take (leading_present (document w) ws.*1) ws) (document w))
           (listeners w) (console w) (image_requests w)
           (src_writes w ++ take (leading_present (document w) ws.*1) ws)).
Proof.
  revert w. induction ws as [|[id path] ws IH]; intros w.
  - simpl. rewrite app_nil_r. by destruct w.
  - cbn [assign_all fmap list_fmap leading_present fst].
    unfold sequence, assign_src, getElementById.
    destruct (decide (is_Some (document w !! id))) as [[el Hel]|Hnone].
    + rewrite Hel, IH. cbn [document random listeners console image_requests
                              src_writes take length].
      rewrite leading_present_insert by (by eexists).
      unfold set_srcs at 2. cbn [foldl snd fst].
      rewrite (alter_alt_Some _ _ _ _ Hel). fold (set_srcs
        (take (leading_present (document w) ws.*1) ws)
        (<[id := <["src" := path]> el]> (document w))).
      rewrite <- app_assoc. f_equal.
      destruct (decide (leading_present (document w) ws.*1 = length ws));
        destruct (decide (S (leading_present (document w) ws.*1) = S (length ws)));
        try done; lia.
    + destruct (document w !! id) as [el|]; [by destruct Hnone; eexists|].
      cbn [take set_srcs foldl]. rewrite app_nil_r.
      destruct (decide (0 = length ((id, path) :: ws))) as [H0|_]; [done|].
      by destruct w.
Qed.

Lemma set_srcs_lookup_other (ws : list (string * string))
    (doc : gmap string (gmap string string)) (id : string) :
  id ∉ ws.*1 -> set_srcs ws doc !! id = doc !! id.
Proof.
  revert doc. induction ws as [|[id' path] ws IH]; intros doc Hid; [done|].
  cbn [fmap list_fmap fst] in Hid. apply not_elem_of_cons in Hid as [Hne Hid].
  unfold set_srcs. cbn [foldl fst snd]. fold (set_srcs ws (alter (insert "src" path) id' doc)).
  rewrite IH by done. by rewrite lookup_alter_ne.
Qed.

Lemma slot_writes_ids_four (base : string) (c1 c2 c3 c4 : card) :
  (slot_writes base 0 [c1; c2; c3; c4]).*1 = slot_ids.
Proof. reflexivity. Qed.

(** The run of a round on any page. *)
Lemma Variant1_newGame_closed (w : world) :
  Variant1.newGame w
  = (if decide (leading_present (document w) slot_ids = 4)
     then Normal else Throw TypeError,
     World (Variant1.deck (random w)).2
           (set_srcs (take (leading_present (document w) slot_ids)
                        (slot_writes "assets/pictures/" 0 (selected (random w))))
                     (document w))
           (listeners w) (console w) (image_requests w)
           (src_writes w
            ++ take (leading_present (document w) slot_ids)
                 (slot_writes "assets/pictures/" 0 (selected (random w))))).
Proof.
  destruct (selected_first_four (random w)) as (c1 & c2 & c3 & c4 & rest & _ & Hsel).
  rewrite Variant1_newGame_eq, assign_all_leading.
  cbn [document random listeners console image_requests src_writes].
  by rewrite Hsel, slot_writes_ids_four.
Qed.

(* ===================================================================== *)
(** * A round *)
(* ===================================================================== *)

(** With every draw at or above one half the deck is left as built and
    the four aces are shown; with every draw below, it is reversed and
    the four kings are. *)
Example newGame_constant_sources :
  src_writes (Variant1.newGame (fresh_world (const_source (3 # 4)) game_page)).2
  = [("card1", "assets/pictures/AH.png"); ("card2", "assets/pictures/AD.png");
     ("card3", "assets/pictures/AC.png"); ("card4", "assets/pictures/AS.png")]
  ∧ src_writes (Variant1.newGame (fresh_world (const_source (1 # 4)) game_page)).2
    = [("card1", "assets/pictures/KS.png"); ("card2", "assets/pictures/KC.png");
       ("card3", "assets/pictures/KD.png"); ("card4", "assets/pictures/KH.png")]
  ∧ document (Variant1.newGame (fresh_world (const_source (1 # 4)) game_page)).2
      !! "card1"
    = Some {["src" := "assets/pictures/KS.png"]}
  ∧ src_writes (Variant2.newGame (fresh_world (const_source (1 # 4)) game_page)).2
    = [("card1", "assets/pictures/classic/KS.png");
       ("card2", "assets/pictures/classic/KC.png");
       ("card3", "assets/pictures/classic/KD.png");
       ("card4", "assets/pictures/classic/KH.png")].
Proof. repeat split; by vm_compute. Qed.

Lemma has_slots_elim (w : world) :
  has_slots w ->
  is_Some (document w !! "card1") ∧ is_Some (document w !! "card2")
  ∧ is_Some (document w !! "card3") ∧ is_Some (document w !! "card4").
Proof.
  unfold has_slots, slot_ids. rewrite !Forall_cons. tauto.
Qed.

Lemma slot_writes_four (base : string) (c1 c2 c3 c4 : card) :
  slot_writes base 0 [c1; c2; c3; c4]
  = [("card1", base +:+ fileName c1); ("card2", base +:+ fileName c2);
     ("card3", base +:+ fileName c3); ("card4", base +:+ fileName c4)].
Proof. reflexivity. Qed.

(** The run of [newGame] on a page that has the four slots. *)
Lemma Variant1_newGame_run (w : world) (c1 c2 c3 c4 : card) :
  has_slots w ->
  selected (random w) = [c1; c2; c3; c4] ->
  Variant1.newGame w
  = (Normal,
     World (Variant1.deck (random w)).2
       (alter (insert "src" ("assets/pictures/" +:+ fileName c4)) "card4"
         (alter (insert "src" ("assets/pictures/" +:+ fileName c3)) "card3"
           (alter (insert "src" ("assets/pictures/" +:+ fileName c2)) "card2"
             (alter (insert "src" ("assets/pictures/" +:+ fileName c1)) "card1"
               (document w)))))
       (listeners w) (console w) (image_requests w)
       (src_writes w
        ++ [("card1", "assets/pictures/" +:+ fileName c1);
            ("card2", "assets/pictures/" +:+ fileName c2);
            ("card3", "assets/pictures/" +:+ fileName c3);
            ("card4", "assets/pictures/" +:+ fileName c4)])).
Proof.
  intros Hslots Hsel. apply has_slots_elim in Hslots as (H1 & H2 & H3 & H4).
  rewrite Variant1_newGame_eq, Hsel, slot_writes_four.
  rewrite assign_all_present; [done|].
  by repeat constructor.
Qed.

(** A round touches nothing but the [src] of the four slots. *)
Lemma Variant1_newGame_frame (w : world) :
  random (Variant1.newGame w).2 = (Variant1.deck (random w)).2
  ∧ frame slot_ids w (Variant1.newGame w).2.
Proof.
  rewrite Variant1_newGame_eq.
  apply (assign_all_frame slot_ids
           (slot_writes "assets/pictures/" 0 (selected (random w)))
           (World (Variant1.deck (random w)).2 (document w) (listeners w)
                  (console w) (image_requests w) (src_writes w))).
  apply slot_writes_ids.
  by destruct (selected_first_four (random w)) as (c1 & c2 & c3 & c4 & rest & _ & ->).
Qed.








Lemma fresh_world_has_slots (s : random_source) :
  has_slots (fresh_world s game_page).
Proof. unfold has_slots. apply (bool_decide_unpack _). by vm_compute. Qed.






(** * Errors *)

(** A list of assignments completes exactly when every element it
    assigns to exists. *)
Lemma assign_all_Normal_iff (ws : list (string * string)) (w : world) :
  (assign_all ws w).1 = Normal
  <-> Forall (fun x => is_Some (document w !! x.1)) ws.
Proof.
  revert w. induction ws as [|[id path] ws IH]; intros w; simpl.
  - split; [constructor|done].
  - rewrite Forall_cons. simpl. unfold sequence, assign_src, getElementById.
    destruct (document w !! id) as [el|] eqn:Hel; simpl.
    + rewrite IH. simpl. split.
      * intros Hall. split; [by eexists|].
        eapply Forall_impl; [exact Hall|]. intros [id' path']; simpl.
        destruct (decide (id = id')) as [<-|Hne].
        -- intros _. by eexists.
        -- by rewrite lookup_insert_ne by done.
      * intros [_ Hall].
        eapply Forall_impl; [exact Hall|]. intros [id' path']; simpl.
        destruct (decide (id = id')) as [<-|Hne].
        -- intros _. rewrite lookup_insert_eq. by eexists.
        -- by rewrite lookup_insert_ne by done.
    + split; [done|]. by intros [[? ?] _].
Qed.

(** C7, as the code has it: [newGame] completes without an error exactly
    when the page has the elements card1 to card4, and the load handler
    exactly when it has the button new-game-btn as well; with them,
    nothing in a round can throw, whatever the random source returns. *)
Theorem newGame_completes_iff (w : world) :
  ((Variant1.newGame w).1 = Normal <-> has_slots w)
  ∧ ((Variant1.onload w).1 = Normal <-> has_button w ∧ has_slots w).
Proof.
  assert (Hnew : forall w, (Variant1.newGame w).1 = Normal <-> has_slots w).
  { intros w'. rewrite Variant1_newGame_eq, assign_all_Normal_iff.
    destruct (selected_first_four (random w')) as (c1 & c2 & c3 & c4 & rest & _ & ->).
    rewrite slot_writes_four. unfold has_slots, slot_ids.
    rewrite !Forall_cons, !Forall_nil. simpl. tauto. }
  split; [apply Hnew|].
  unfold Variant1.onload, sequence, addEventListener, getElementById, has_button.
  destruct (document w !! "new-game-btn") as [el|] eqn:Hel.
  - rewrite Hnew. unfold has_slots. simpl. split; [|tauto].
    intros Hs. split; [by eexists|done].
  - simpl. split; [done|]. by intros [[? ?] _].
Qed.

Lemma newGame_completes_iff_witness :
  (Variant1.newGame (fresh_world (const_source (1 # 4)) game_page)).1 = Normal
  ∧ (Variant1.onload (fresh_world (const_source (1 # 4)) game_page)).1 = Normal.
Proof.
  destruct (newGame_completes_iff (fresh_world (const_source (1 # 4)) game_page))
    as [Hnew Hload].
  split.
  - apply Hnew. unfold has_slots. apply (bool_decide_unpack _). vm_compute. exact I.
  - apply Hload. split.
    + unfold has_button. apply (bool_decide_unpack _). vm_compute. exact I.
    + unfold has_slots. apply (bool_decide_unpack _). vm_compute. exact I.
Defined.

(** C7, as stated, fails: on a page without the slots the first
    assignment throws; on a page with the slots but without the button
    the load handler throws before any card is dealt. *)
Lemma newGame_throws_without_elements :
  (Variant1.newGame (fresh_world (const_source (3 # 4)) blank_page)).1
  = Throw TypeError
  ∧ (Variant1.onload (fresh_world (const_source (3 # 4)) slots_only_page)).1
    = Throw TypeError
  ∧ src_writes (Variant1.onload (fresh_world (const_source (3 # 4)) slots_only_page)).2
    = [].
Proof. by vm_compute. Qed.

(** * No state between rounds *)

(** C8: a round keeps nothing for the next one.  Every round shuffles
    the whole deck, built anew from the two tables; the cards it
    selects are a function of the values the random source returns
    during the round, whatever the page, the listeners, the console and
    the earlier assignments are; it writes nothing but the [src] of the
    elements card1 to card4, creates and removes no element, logs,
    registers and fetches nothing, and leaves the random source at a
    later point of the same sequence. *)
Theorem newGame_keeps_no_state (w1 w2 : world) :
  (forall n, random w1 n = random w2 n) ->
  (Variant1.deck (random w1)).1 ≡ₚ Variant1.fresh_deck
  ∧ selected (random w1) = selected (random w2)
  ∧ (has_slots w1 -> has_slots w2 ->
     drop (length (src_writes w1)) (src_writes (Variant1.newGame w1).2)
     = drop (length (src_writes w2)) (src_writes (Variant1.newGame w2).2))
  ∧ frame slot_ids w1 (Variant1.newGame w1).2
  ∧ later (random w1) (random (Variant1.newGame w1).2).
Proof.
  intros Hsame.
  assert (Hsel : selected (random w1) = selected (random w2)).
  { unfold selected. f_equal. apply deck_same_signs.
    intros n _. by rewrite Hsame. }
  split; [apply deck_Permutation|].
  split; [exact Hsel|]. split; [|split].
  - intros Hs1 Hs2.
    destruct (selected_first_four (random w1)) as (c1 & c2 & c3 & c4 & rest & _ & Hsel1).
    rewrite (Variant1_newGame_run w1 c1 c2 c3 c4 Hs1 Hsel1).
    rewrite Hsel in Hsel1.
    rewrite (Variant1_newGame_run w2 c1 c2 c3 c4 Hs2 Hsel1).
    cbn [snd src_writes]. by rewrite !drop_app_length.
  - apply Variant1_newGame_frame.
  - rewrite (proj1 (Variant1_newGame_frame w1)). apply deck_later.
Qed.

Lemma newGame_keeps_no_state_witness :
  frame slot_ids (fresh_world (const_source (1 # 4)) game_page)
    (Variant1.newGame (fresh_world (const_source (1 # 4)) game_page)).2
  ∧ later (const_source (1 # 4))
      (random (Variant1.newGame (fresh_world (const_source (1 # 4)) game_page)).2).
Proof.
  destruct (newGame_keeps_no_state
              (fresh_world (const_source (1 # 4)) game_page)
              (World (const_source (1 # 4)) blank_page
                     [("new-game-btn", "click", "newGame")] ["earlier"] []
                     [("card1", "assets/pictures/AH.png")]))
    as (_ & _ & _ & Hframe & Hlater).
  - intros n. reflexivity.
  - split; [exact Hframe|exact Hlater].
Defined.

(** * The two versions *)

Lemma same_but_base_start (base1 base2 : string) (w w' : world) :
  src_writes w' = src_writes w -> same_but_base base1 base2 w w' w'.
Proof.
  intros Hw. repeat split; try done.
  - intros id. apply option_same_but_src_refl.
  - exists []. by rewrite Hw, !app_nil_r.
Qed.

Lemma newGame_same_but_base (w0 w : world) :
  src_writes w = src_writes w0 ->
  (Variant1.newGame w).1 = (Variant2.newGame w).1
  ∧ same_but_base "assets/pictures/" "assets/pictures/classic/" w0
      (Variant1.newGame w).2 (Variant2.newGame w).2.
Proof.
  intros Hw. rewrite Variant1_newGame_eq, Variant2_newGame_eq.
  change (Variant2.deck (random w)) with (Variant1.deck (random w)).
  rewrite (slot_writes_fmap "assets/pictures/"),
          (slot_writes_fmap "assets/pictures/classic/").
  apply assign_all_same_but_base. by apply same_but_base_start.
Qed.

(** C9: the two versions build the same deck from the same tables and
    shuffle it the same way, so from the same world they select the
    same cards, complete alike, and leave worlds that differ only in
    the directory of the paths they assigned, ["assets/pictures/"]
    against ["assets/pictures/classic/"]; the probe of the second
    version touches only the console and the detached images. *)
Theorem variants_differ_only_in_base_path (w : world) :
  Variant2.CARD_VALUES = Variant1.CARD_VALUES
  ∧ Variant2.CARD_SUITS = Variant1.CARD_SUITS
  ∧ Variant2.fresh_deck = Variant1.fresh_deck
  ∧ Variant2.deck (random w) = Variant1.deck (random w)
  ∧ Array_slice 0 4 (Variant2.deck (random w)).1
    = Array_slice 0 4 (Variant1.deck (random w)).1
  ∧ (Variant1.newGame w).1 = (Variant2.newGame w).1
  ∧ same_but_base "assets/pictures/" "assets/pictures/classic/" w
      (Variant1.newGame w).2 (Variant2.newGame w).2
  ∧ (Variant1.onload w).1 = (Variant2.onload w).1
  ∧ same_but_base "assets/pictures/" "assets/pictures/classic/" w
      (Variant1.onload w).2 (Variant2.onload w).2
  ∧ Variant2.diagnostics w
    = (Normal,
       World (random w) (document w) (listeners w)
             (console w ++ ["Testing image paths:"])
             (image_requests w
              ++ ["assets/pictures/AC.png"; "assets/pictures/AD.png";
                  "assets/pictures/AH.png"; "assets/pictures/AS.png"])
             (src_writes w)).
Proof.
  do 5 (split; [reflexivity|]).
  split; [by apply (newGame_same_but_base w w)|].
  split; [by apply (newGame_same_but_base w w)|].
  assert (Hload : (Variant1.onload w).1 = (Variant2.onload w).1
                  ∧ same_but_base "assets/pictures/" "assets/pictures/classic/" w
                      (Variant1.onload w).2 (Variant2.onload w).2).
  { unfold Variant1.onload, Variant2.onload, sequence, addEventListener, getElementById.
    destruct (document w !! "new-game-btn") as [el|].
    - by apply newGame_same_but_base.
    - split; [done|]. by apply same_but_base_start. }
  split; [apply Hload|]. split; [apply Hload|].
  unfold Variant2.diagnostics, sequence, console_log, Array_forEach. cbn.
  by rewrite <- !app_assoc.
Qed.

(* ===================================================================== *)
(** * The shuffle under a fair source *)
(* ===================================================================== *)

(** ** The measure *)

Lemma Pr_nonneg (N : nat) (E : (nat -> bool) -> bool) : (0 <= Pr N E)%Q.
Proof.
  revert E. induction N as [|N IH]; intros E; simpl.
  - destruct (E _); lra.
  - pose proof (IH (fun bits => E (flip_first true bits))).
    pose proof (IH (fun bits => E (flip_first false bits))). lra.
Qed.

Lemma Pr_ext (N : nat) (E1 E2 : (nat -> bool) -> bool) :
  (forall bits, E1 bits = E2 bits) -> Pr N E1 = Pr N E2.
Proof.
  revert E1 E2. induction N as [|N IH]; intros E1 E2 HE; simpl.
  - by rewrite HE.
  - f_equal. f_equal; apply IH; intros bits; apply HE.
Qed.

Lemma Pr_flip (N : nat) (E Et Ef : (nat -> bool) -> bool) :
  (forall bits, E (flip_first true bits) = Et bits) ->
  (forall bits, E (flip_first false bits) = Ef bits) ->
  Pr (S N) E = ((1 # 2) * (Pr N Et + Pr N Ef))%Q.
Proof. intros Ht Hf. simpl. f_equal. f_equal; by apply Pr_ext. Qed.

Lemma Pr_sure (N : nat) (E : (nat -> bool) -> bool) :
  (forall bits, E bits = true) -> (1 <= Pr N E)%Q.
Proof.
  revert E. induction N as [|N IH]; intros E HE; simpl.
  - rewrite HE. lra.
  - pose proof (IH (fun bits => E (flip_first true bits)) (fun _ => HE _)).
    pose proof (IH (fun bits => E (flip_first false bits)) (fun _ => HE _)).
    lra.
Qed.

Lemma Pr_le_1 (N : nat) (E : (nat -> bool) -> bool) : (Pr N E <= 1)%Q.
Proof.
  revert E. induction N as [|N IH]; intros E; simpl.
  - destruct (E _); lra.
  - pose proof (IH (fun bits => E (flip_first true bits))).
    pose proof (IH (fun bits => E (flip_first false bits))). lra.
Qed.

(** A draw below one half followed by one that is not: one in four. *)
Example Pr_two_draws :
  (Pr 5 (fun bits => bits 0%nat && negb (bits 1%nat)) == 1 # 4)%Q.
Proof. reflexivity. Qed.

(** An event that one sequence of [N] draws brings about has a positive
    probability. *)
Lemma Pr_pos (E : (nat -> bool) -> bool) (l : list bool) :
  E (bits_of_list l) = true -> (0 < Pr (length l) E)%Q.
Proof.
  revert E. induction l as [|b l IH]; intros E HE; simpl.
  - simpl in HE. rewrite HE. lra.
  - pose proof (Pr_nonneg (length l) (fun bits => E (flip_first true bits))).
    pose proof (Pr_nonneg (length l) (fun bits => E (flip_first false bits))).
    pose proof (IH (fun bits => E (flip_first b bits)) HE).
    destruct b; lra.
Qed.

(** ** The comparator on a coin *)

Lemma comparefn_coin (a b : card) (b0 : bool) (bits : nat -> bool) :
  Variant1.comparefn a b (coin_source (flip_first b0 bits))
  = ((if b0 then (1 # 4) - (1 # 2) else (3 # 4) - (1 # 2))%Q, coin_source bits).
Proof. by destruct b0. Qed.

Lemma search_coin fuel (array : list card) pivot left right b0 bits :
  BinaryInsertionSort_search Variant1.comparefn (S fuel) array pivot left right
    (coin_source (flip_first b0 bits))
  = if left <? right then
      if b0
      then BinaryInsertionSort_search Variant1.comparefn fuel array pivot
             left (left + Nat.shiftr (right - left) 1) (coin_source bits)
      else BinaryInsertionSort_search Variant1.comparefn fuel array pivot
             (left + Nat.shiftr (right - left) 1 + 1) right (coin_source bits)
    else (left, coin_source (flip_first b0 bits)).
Proof.
  cbn [BinaryInsertionSort_search]. destruct (left <? right); [|done].
  rand_unfold. rewrite comparefn_coin. by destruct b0.
Qed.

Lemma CountAndMakeRun_loop_coin fuel (array : list card) prev idx high rl b0 bits :
  CountAndMakeRun_loop Variant1.comparefn (S fuel) false array prev idx high rl
    (coin_source (flip_first b0 bits))
  = if idx <? high then
      if b0 then (rl, coin_source bits)
      else CountAndMakeRun_loop Variant1.comparefn fuel false array
             (array !!! idx) (idx + 1) high (rl + 1) (coin_source bits)
    else (rl, coin_source (flip_first b0 bits)).
Proof.
  cbn [CountAndMakeRun_loop]. destruct (idx <? high); [|done].
  rand_unfold. rewrite comparefn_coin. by destruct b0.
Qed.

(** ** The binary search *)

Lemma keep_nonneg fuel left right : (0 <= keep fuel left right)%Q.
Proof.
  revert left right. induction fuel as [|fuel IH]; intros left right; simpl.
  - destruct (left =? 0); lra.
  - destruct (left <? right).
    + rewrite Qred_correct.
      pose proof (IH left (left + Nat.shiftr (right - left) 1)).
      pose proof (IH (left + Nat.shiftr (right - left) 1 + 1) right). lra.
    + destruct (left =? 0); lra.
Qed.

Lemma search_stays (array : list card) (pivot : card)
    (K : nat -> random_source -> bool) (q : Q) (m fuel : nat) :
  (0 <= q)%Q ->
  forall left right n,
    left <= right -> m + fuel <= n ->
    (forall l n', left <= l <= right -> 1 <= l -> m <= n' ->
       (q <= Pr n' (fun bits => K l (coin_source bits)))%Q) ->
    (keep fuel left right * q
     <= Pr n (fun bits =>
          K (BinaryInsertionSort_search Variant1.comparefn fuel array pivot
               left right (coin_source bits)).1
            (BinaryInsertionSort_search Variant1.comparefn fuel array pivot
               left right (coin_source bits)).2))%Q.
Proof.
  intros Hq.
  assert (Hexit : forall left right n,
    left <= right -> m <= n ->
    (forall l n', left <= l <= right -> 1 <= l -> m <= n' ->
       (q <= Pr n' (fun bits => K l (coin_source bits)))%Q) ->
    ((if left =? 0 then 0 else 1) * q
     <= Pr n (fun bits => K left (coin_source bits)))%Q).
  { intros left right n Hlr Hn HK. destruct (Nat.eqb_spec left 0) as [->|Hne].
    - pose proof (Pr_nonneg n (fun bits => K 0 (coin_source bits))). lra.
    - pose proof (HK left n ltac:(lia) ltac:(lia) Hn). lra. }
  induction fuel as [|fuel IH]; intros left right n Hlr Hn HK.
  - apply (Hexit left right); [done|lia|done].
  - cbn [keep]. destruct (Nat.ltb_spec left right) as [Hlt|Hge].
    + destruct n as [|n]; [lia|].
      pose proof (shiftr_1_lt (right - left)) as Hmid.
      rewrite Qred_correct.
      rewrite (Pr_flip n _
        (fun bits =>
           K (BinaryInsertionSort_search Variant1.comparefn fuel array pivot
                left (left + Nat.shiftr (right - left) 1) (coin_source bits)).1
             (BinaryInsertionSort_search Variant1.comparefn fuel array pivot
                left (left + Nat.shiftr (right - left) 1) (coin_source bits)).2)
        (fun bits =>
           K (BinaryInsertionSort_search Variant1.comparefn fuel array pivot
                (left + Nat.shiftr (right - left) 1 + 1) right (coin_source bits)).1
             (BinaryInsertionSort_search Variant1.comparefn fuel array pivot
                (left + Nat.shiftr (right - left) 1 + 1) right (coin_source bits)).2)).
      * pose proof (IH left (left + Nat.shiftr (right - left) 1) n) as IH1.
        pose proof (IH (left + Nat.shiftr (right - left) 1 + 1) right n) as IH2.
        assert (H1 := IH1 ltac:(lia) ltac:(lia)
                        (fun l n' Hl => HK l n' ltac:(lia))).
        assert (H2 := IH2 ltac:(lia) ltac:(lia)
                        (fun l n' Hl => HK l n' ltac:(lia))).
        lra.
      * intros bits. rewrite search_coin.
        by rewrite (proj2 (Nat.ltb_lt left right) Hlt).
      * intros bits. rewrite search_coin.
        by rewrite (proj2 (Nat.ltb_lt left right) Hlt).
    + assert (left = right) by lia. subst right.
      rewrite (Pr_ext n _ (fun bits => K left (coin_source bits))).
      * apply (Hexit left left); [done|lia|done].
      * intros bits. cbn [BinaryInsertionSort_search].
        by rewrite Nat.ltb_irrefl.
Qed.

(** ** The insertions *)

Lemma stay_nonneg fuel start high : (0 <= stay fuel start high)%Q.
Proof.
  revert start. induction fuel as [|fuel IH]; intros start; simpl; [lra|].
  destruct (start <? high); [|lra].
  rewrite Qred_correct.
  pose proof (keep_nonneg start 0 start). pose proof (IH (start + 1)). nra.
Qed.

Lemma BinaryInsertionSort_loop_step fuel (array : list card) low start high s :
  start < high ->
  BinaryInsertionSort_loop Variant1.comparefn (S fuel) array low start high s
  = BinaryInsertionSort_loop Variant1.comparefn fuel
      (<[(BinaryInsertionSort_search Variant1.comparefn (start - low) array
            (array !!! start) low start s).1 := array !!! start]>
         (BinaryInsertionSort_shift
            (start - (BinaryInsertionSort_search Variant1.comparefn (start - low)
                        array (array !!! start) low start s).1)
            array start
            (BinaryInsertionSort_search Variant1.comparefn (start - low) array
               (array !!! start) low start s).1))
      low (start + 1) high
      (BinaryInsertionSort_search Variant1.comparefn (start - low) array
         (array !!! start) low start s).2.
Proof.
  intros Hlt. cbn [BinaryInsertionSort_loop].
  rewrite (proj2 (Nat.ltb_lt start high) Hlt). rand_unfold.
  by destruct (BinaryInsertionSort_search _ _ _ _ _ _ s).
Qed.

Lemma head_is_lookup (c : card) (l : list card) :
  l !! 0 = Some c -> head_is c l = true.
Proof.
  intros Hl. unfold head_is. apply bool_decide_eq_true.
  by rewrite head_lookup.
Qed.

Lemma inserted_lookup_0 (array : list card) (start left : nat) (c : card) :
  1 <= left -> array !! 0 = Some c -> inserted array start left !! 0 = Some c.
Proof.
  intros Hl Hc. unfold inserted.
  assert (0 < length array) by (by apply lookup_lt_Some in Hc).
  rewrite lookup_app_l by (rewrite length_take; lia).
  rewrite lookup_take_lt by lia. done.
Qed.

(** Insertions that start at or after index 1 leave the first card in
    place with at least the probability [stay]. *)
Lemma insertions_keep_head (c : card) (high fuel : nat) :
  forall (array : list card) start n,
    array !! 0 = Some c -> high <= length array -> 1 <= start ->
    fuel * high <= n ->
    (stay fuel start high
     <= Pr n (fun bits =>
          head_is c (BinaryInsertionSort_loop Variant1.comparefn fuel array
                       0 start high (coin_source bits)).1))%Q.
Proof.
  induction fuel as [|fuel IH]; intros array start n Hc Hhigh Hstart Hn.
  - apply Pr_sure. intros bits. by apply head_is_lookup.
  - cbn [stay]. destruct (Nat.ltb_spec start high) as [Hlt|Hge].
    + rewrite Qred_correct.
      pose (K := fun (l : nat) (s' : random_source) =>
           head_is c (BinaryInsertionSort_loop Variant1.comparefn fuel
                        (<[l := array !!! start]>
                           (BinaryInsertionSort_shift (start - l) array start l))
                        0 (start + 1) high s').1).
      rewrite (Pr_ext n _ (fun bits =>
        K (BinaryInsertionSort_search Variant1.comparefn start array
             (array !!! start) 0 start (coin_source bits)).1
          (BinaryInsertionSort_search Variant1.comparefn start array
             (array !!! start) 0 start (coin_source bits)).2)).
      * apply (search_stays array (array !!! start) K
                 (stay fuel (start + 1) high) (fuel * high) start
                 (stay_nonneg _ _ _) 0 start n); [lia|lia|].
        intros l n' Hl Hl1 Hn'. unfold K.
        rewrite BinaryInsertionSort_shift_insert by lia.
        fold (inserted array start l).
        apply IH; [|rewrite inserted_length; lia|lia|lia].
        by apply inserted_lookup_0.
      * intros bits. rewrite BinaryInsertionSort_loop_step by done.
        unfold K. by rewrite Nat.sub_0_r.
    + apply Pr_sure. intros bits. cbn [BinaryInsertionSort_loop].
      rewrite (proj2 (Nat.ltb_ge start high) Hge). by apply head_is_lookup.
Qed.

(** ** The scan of the first run *)

Lemma run_bound_ok (array : list card) (g : nat -> Q)
    (K : nat -> random_source -> bool) (m high : nat) :
  (forall rl, (0 <= g rl)%Q) ->
  (forall rl n', m <= n' ->
     (g rl <= Pr n' (fun bits => K rl (coin_source bits)))%Q) ->
  forall fuel prev idx rl n,
    m + fuel <= n ->
    (run_bound g fuel idx high rl
     <= Pr n (fun bits =>
          K (CountAndMakeRun_loop Variant1.comparefn fuel false array prev
               idx high rl (coin_source bits)).1
            (CountAndMakeRun_loop Variant1.comparefn fuel false array prev
               idx high rl (coin_source bits)).2))%Q.
Proof.
  intros Hg HK. induction fuel as [|fuel IH]; intros prev idx rl n Hn.
  - apply HK. lia.
  - cbn [run_bound]. destruct (idx <? high) eqn:Hlt.
    + destruct n as [|n]; [lia|].
      rewrite Qred_correct.
      rewrite (Pr_flip n _
        (fun bits => K rl (coin_source bits))
        (fun bits =>
           K (CountAndMakeRun_loop Variant1.comparefn fuel false array
                (array !!! idx) (idx + 1) high (rl + 1) (coin_source bits)).1
             (CountAndMakeRun_loop Variant1.comparefn fuel false array
                (array !!! idx) (idx + 1) high (rl + 1) (coin_source bits)).2)).
      * pose proof (HK rl n ltac:(lia)).
        pose proof (IH (array !!! idx) (idx + 1) (rl + 1) n ltac:(lia)). lra.
      * intros bits. by rewrite CountAndMakeRun_loop_coin, Hlt.
      * intros bits. by rewrite CountAndMakeRun_loop_coin, Hlt.
    + rewrite (Pr_ext n _ (fun bits => K rl (coin_source bits))).
      * apply HK. lia.
      * intros bits. cbn [CountAndMakeRun_loop]. by rewrite Hlt.
Qed.

Lemma stay_after_run_nonneg (runLength : nat) : (0 <= stay_after_run runLength)%Q.
Proof.
  unfold stay_after_run. destruct (runLength <? 52); [|lra]. apply stay_nonneg.
Qed.

(** ** The whole shuffle *)

(** The shuffle after a first comparison that is not negative: the scan
    goes on for an ascending run, and the rest is inserted. *)
Lemma deck_coin_ascending (bits : nat -> bool) :
  Variant1.deck (coin_source (flip_first false bits))
  = (fun (runLength : nat) (s : random_source) =>
       (if runLength <? 52
        then BinaryInsertionSort Variant1.comparefn Variant1.fresh_deck
               0 (0 + runLength) 52
        else mret Variant1.fresh_deck) s)
      (CountAndMakeRun_loop Variant1.comparefn 50 false Variant1.fresh_deck
         (Variant1.fresh_deck !!! 1) 2 52 2 (coin_source bits)).1
      (CountAndMakeRun_loop Variant1.comparefn 50 false Variant1.fresh_deck
         (Variant1.fresh_deck !!! 1) 2 52 2 (coin_source bits)).2.
Proof.
  unfold Variant1.deck, Array_sort, ArrayTimSortImpl, CountAndMakeRun.
  rewrite fresh_deck_length.
  change (ComputeMinRunLength 52) with 52.
  change (52 <? 2) with false. change (0 + 1 =? 0 + 52) with false.
  change (0 + 52 - (0 + 1 + 1)) with 50. change (0 + 1 + 1) with 2.
  change (0 + 52) with 52. change (0 + 1 - 1) with 0. change (0 + 1) with 1.
  change (52 `min` 52) with 52.
  rand_unfold. rewrite comparefn_coin.
  change (is_negative ((3 # 4) - (1 # 2))) with false. cbv iota.
  by destruct (CountAndMakeRun_loop _ _ _ _ _ _ _ _ _).
Qed.

(** The shuffled deck is a function of the first [shuffle_draws] bits:
    [Prob] weighs every way a shuffle can go. *)
Lemma deck_reads_shuffle_draws (bits1 bits2 : nat -> bool) :
  (forall n, n < shuffle_draws -> bits1 n = bits2 n) ->
  (Variant1.deck (coin_source bits1)).1 = (Variant1.deck (coin_source bits2)).1.
Proof.
  intros Hbits. apply deck_same_signs. intros n Hn.
  unfold coin_source. rewrite (Hbits n); [done|].
  unfold shuffle_draws. lia.
Qed.

(** With a first comparison that is not negative, the ace of hearts
    stays in front unless a later insertion lands there. *)
Lemma first_is_ace_of_hearts_bound_from (n : nat) :
  51 * 52 + 50 <= n ->
  ((1 # 2) * run_bound stay_after_run 50 2 52 2
   <= Pr (S n) (first_is ace_of_hearts))%Q.
Proof.
  intros Hn.
  pose (K := fun (runLength : nat) (s : random_source) =>
         head_is ace_of_hearts
           ((if runLength <? 52
             then BinaryInsertionSort Variant1.comparefn Variant1.fresh_deck
                    0 (0 + runLength) 52
             else mret Variant1.fresh_deck) s).1).
  rewrite (Pr_flip n (first_is ace_of_hearts)
    (fun bits => first_is ace_of_hearts (flip_first true bits))
    (fun bits =>
       K (CountAndMakeRun_loop Variant1.comparefn 50 false Variant1.fresh_deck
            (Variant1.fresh_deck !!! 1) 2 52 2 (coin_source bits)).1
         (CountAndMakeRun_loop Variant1.comparefn 50 false Variant1.fresh_deck
            (Variant1.fresh_deck !!! 1) 2 52 2 (coin_source bits)).2));
    [|done|by intros bits; unfold first_is; rewrite deck_coin_ascending].
  pose proof (Pr_nonneg n
                (fun bits => first_is ace_of_hearts (flip_first true bits))) as H0.
  assert (Hrun := run_bound_ok Variant1.fresh_deck stay_after_run K (51 * 52) 52
                    stay_after_run_nonneg).
  lapply Hrun.
  - intros Hb. specialize (Hb 50 (Variant1.fresh_deck !!! 1) 2 2 n ltac:(lia)).
    lra.
  - intros rl n' Hn'. unfold stay_after_run, K.
    destruct (rl <? 52).
    + unfold BinaryInsertionSort. change (0 + rl) with rl.
      apply insertions_keep_head; [done|by rewrite fresh_deck_length| |].
      * destruct (Nat.eqb_spec 0 rl); lia.
      * destruct (Nat.eqb_spec 0 rl); lia.
    + by apply Pr_sure.
Qed.

Lemma first_is_ace_of_hearts_bound :
  ((1 # 2) * run_bound stay_after_run 50 2 52 2
   <= Prob (first_is ace_of_hearts))%Q.
Proof.
  apply (first_is_ace_of_hearts_bound_from 2703).
  apply Nat.leb_le. by vm_compute.
Qed.

Lemma ace_of_hearts_thrice_uniform :
  (3 * (1 # 52) < (1 # 2) * run_bound stay_after_run 50 2 52 2)%Q.
Proof. apply Qlt_alt. by vm_compute. Qed.

(** Every card can come first. *)
Lemma front_draws_front :
  Forall (fun k => first_is (Variant1.fresh_deck !!! k)
                     (bits_of_list (front_draws k)) = true)
         (seq 0 52).
Proof. apply (bool_decide_unpack _). by vm_compute. Qed.

Lemma first_position_positive (c : card) :
  c ∈ Variant1.fresh_deck -> (0 < Prob (first_is c))%Q.
Proof.
  intros Hc. apply list_elem_of_lookup in Hc as [k Hk].
  assert (Hlt : k < 52).
  { apply lookup_lt_Some in Hk. by rewrite fresh_deck_length in Hk. }
  pose proof (proj1 (Forall_forall _ _) front_draws_front k) as Hfront.
  cbv beta in Hfront. rewrite (list_lookup_total_correct _ _ _ Hk) in Hfront.
  unfold Prob.
  replace shuffle_draws with (length (front_draws k))
    by (unfold front_draws; apply length_resize).
  apply Pr_pos, Hfront. apply elem_of_seq. lia.
Qed.

(** ** The orderings *)

Lemma Pr_after_draws (l : list bool) (n : nat) (E : (nat -> bool) -> bool) :
  (halves (length l) * Pr n (fun bits => E (after_draws l bits))
   <= Pr (length l + n) E)%Q.
Proof.
  revert E. induction l as [|b l IH]; intros E.
  - change (1 * Pr n E <= Pr n E)%Q. lra.
  - cbn [length halves Nat.add Pr].
    pose proof (IH (fun bits => E (flip_first b bits))) as Hb.
    pose proof (Pr_nonneg (length l + n) (fun bits => E (flip_first true bits))).
    pose proof (Pr_nonneg (length l + n) (fun bits => E (flip_first false bits))).
    change (Pr n (fun bits => E (after_draws (b :: l) bits)))
      with (Pr n (fun bits => E (flip_first b (after_draws l bits)))).
    destruct b; lra.
Qed.

(** When the first 51 draws are all at or above one half the deck is
    left as built, whatever comes after. *)
Lemma deck_unchanged (bits : nat -> bool) :
  deck_is Variant1.fresh_deck (after_draws (replicate 51 false) bits) = true.
Proof. by vm_compute. Qed.

Lemma halves_nonneg (k : nat) : (0 <= halves k)%Q.
Proof. induction k as [|k IH]; simpl; lra. Qed.

Lemma deck_unchanged_bound_from (n : nat) :
  (halves 51 <= Pr (51 + n) (deck_is Variant1.fresh_deck))%Q.
Proof.
  pose proof (Pr_after_draws (replicate 51 false) n
                (deck_is Variant1.fresh_deck)) as Hafter.
  pose proof (Pr_sure n (fun bits => deck_is Variant1.fresh_deck
                                       (after_draws (replicate 51 false) bits))
                deck_unchanged).
  change (length (replicate 51 false)) with 51 in Hafter.
  pose proof (halves_nonneg 51). nra.
Qed.

Lemma deck_unchanged_bound :
  (halves 51 <= Prob (deck_is Variant1.fresh_deck))%Q.
Proof. apply (deck_unchanged_bound_from 2653). Qed.

Lemma unchanged_beats_uniform :
  (inject_Z (10 ^ 50) * (1 # factorial 52) < halves 51)%Q.
Proof. apply Qlt_alt. by vm_compute. Qed.

(** C6, as stated, fails: with a fair source the orderings of the deck
    are not equally likely, not even within a factor of [10^50], and
    the frequencies of the cards in the first position are not uniform,
    not even within a factor of 3. *)
Lemma shuffle_not_uniform :
  ¬ equally_likely_within (inject_Z (10 ^ 50))
  ∧ ¬ first_position_uniform_within 3.
Proof.
  split.
  - intros Hclaim. specialize (Hclaim Variant1.fresh_deck (reflexivity _)).
    pose proof deck_unchanged_bound. pose proof unchanged_beats_uniform. lra.
  - intros Hclaim.
    destruct (Hclaim ace_of_hearts) as [_ Hup].
    { apply (bool_decide_unpack _). by vm_compute. }
    pose proof first_is_ace_of_hearts_bound.
    pose proof ace_of_hearts_thrice_uniform. lra.
Qed.

(** C6, as the code has it: the shuffle is random but not uniform.  It
    always yields a permutation of the deck, and with a fair source
    every card comes first with positive probability; but the first
    card built, the ace of hearts, comes first more than three times as
    often as one card in 52, and the deck is left exactly as built with
    probability at least [(1/2)^51], far above [1/52!]. *)
Theorem shuffle_biased :
  (forall s, (Variant1.deck s).1 ≡ₚ Variant1.fresh_deck)
  ∧ Forall (fun c => (0 < Prob (first_is c))%Q) Variant1.fresh_deck
  ∧ (3 * (1 # 52) < Prob (first_is ace_of_hearts))%Q
  ∧ (halves 51 <= Prob (deck_is Variant1.fresh_deck))%Q
  ∧ (inject_Z (10 ^ 50) * (1 # factorial 52) < halves 51)%Q.
Proof.
  split; [apply deck_Permutation|].
  split; [apply Forall_forall, first_position_positive|].
  split; [|split; [apply deck_unchanged_bound|apply unchanged_beats_uniform]].
  pose proof first_is_ace_of_hearts_bound.
  pose proof ace_of_hearts_thrice_uniform. lra.
Qed.

(* ===================================================================== *)
(** * Further properties of the script *)
(* ===================================================================== *)

(** ** A round on any page *)

(** X1: on any page, a round first shuffles, moving the random source on
    even when it fails afterwards; it then assigns the slots in the
    order card1, card2, card3, card4 up to the first one the page does
    not have, and throws a [TypeError] exactly when one is missing.  The
    slots after a missing one are left as they were, present or not. *)
Theorem newGame_on_any_page (w : world) :
  Variant1.newGame w
  = (if decide (leading_present (document w) slot_ids = 4)
     then Normal else Throw TypeError,
     World (Variant1.deck (random w)).2
           (set_srcs (take (leading_present (document w) slot_ids)
                        (slot_writes "assets/pictures/" 0 (selected (random w))))
                     (document w))
           (listeners w) (console w) (image_requests w)
           (src_writes w
            ++ take (leading_present (document w) slot_ids)
                 (slot_writes "assets/pictures/" 0 (selected (random w)))))
  ∧ Forall (fun id => document (Variant1.newGame w).2 !! id = document w !! id)
      (drop (leading_present (document w) slot_ids) slot_ids).
Proof.
  split; [apply Variant1_newGame_closed|].
  destruct (selected_first_four (random w)) as (c1 & c2 & c3 & c4 & rest & _ & Hsel).
  rewrite Variant1_newGame_closed. cbn [snd document]. rewrite Hsel.
  apply Forall_forall. intros id Hid.
  apply set_srcs_lookup_other.
  rewrite fmap_take, slot_writes_ids_four.
  intros Htake.
  assert (Hnd : NoDup slot_ids) by (apply (bool_decide_unpack _); by vm_compute).
  rewrite <- (take_drop (leading_present (document w) slot_ids) slot_ids) in Hnd.
  apply NoDup_app in Hnd as (_ & Hdisj & _). by apply (Hdisj id).
Qed.

(** A page with the first slot only: the round assigns card1, throws at
    card2, and leaves card3 and card4 alone. *)
Example newGame_first_slot_only :
  let w := fresh_world (const_source (3 # 4))
             (list_to_map [("card1", ∅); ("card3", ∅); ("card4", ∅)]) in
  (Variant1.newGame w).1 = Throw TypeError
  ∧ src_writes (Variant1.newGame w).2 = [("card1", "assets/pictures/AH.png")]
  ∧ document (Variant1.newGame w).2 !! "card3" = Some ∅.
Proof. repeat split; by vm_compute. Qed.

(** ** The load handler *)

Lemma add_listener_elem (l : string * string * string)
    (ls : list (string * string * string)) : l ∈ add_listener l ls.
Proof.
  unfold add_listener. destruct (decide (l ∈ ls)); [done|].
  apply elem_of_app. right. by apply list_elem_of_singleton.
Qed.

Lemma add_listener_again (l : string * string * string)
    (ls : list (string * string * string)) :
  add_listener l (add_listener l ls) = add_listener l ls.
Proof.
  unfold add_listener at 1. by rewrite decide_True by apply add_listener_elem.
Qed.

Lemma add_listener_NoDup (l : string * string * string)
    (ls : list (string * string * string)) :
  NoDup ls -> NoDup (add_listener l ls).
Proof.
  intros Hnd. unfold add_listener. destruct (decide (l ∈ ls)) as [|Hl]; [done|].
  apply NoDup_app. split; [done|]. split; [|apply NoDup_singleton].
  intros x Hx Hx'. apply list_elem_of_singleton in Hx'. by subst.
Qed.

(** The load handler in closed form. *)
Lemma Variant1_onload_closed (w : world) :
  Variant1.onload w
  = if decide (is_Some (document w !! "new-game-btn")) then
      ((Variant1.newGame w).1,
       World (random (Variant1.newGame w).2) (document (Variant1.newGame w).2)
             (add_listener button_listener (listeners w))
             (console w) (image_requests w)
             (src_writes (Variant1.newGame w).2))
    else (Throw TypeError, w).
Proof.
  unfold Variant1.onload, sequence, addEventListener, getElementById.
  destruct (decide (is_Some (document w !! "new-game-btn"))) as [[el Hel]|Hnone].
  - rewrite Hel. by rewrite !Variant1_newGame_closed.
  - destruct (document w !! "new-game-btn") as [el|]; [|done].
    destruct Hnone. by eexists.
Qed.

(** X2: the load handler registers the click listener before it deals.
    Without the button it throws at once and nothing at all happens: no
    shuffle, no assignment.  With the button [newGame] is registered,
    unless it is already, whether or not the first deal then completes,
    and the deal is exactly a round.  So the button has the listener
    after the handler exactly when the page has the button or the
    listener was there before; the handler never registers a listener
    twice, and run a second time it changes no listener. *)
Theorem onload_outcomes (w : world) :
  Variant1.onload w
  = (if decide (is_Some (document w !! "new-game-btn")) then
       ((Variant1.newGame w).1,
        World (random (Variant1.newGame w).2) (document (Variant1.newGame w).2)
              (add_listener button_listener (listeners w))
              (console w) (image_requests w)
              (src_writes (Variant1.newGame w).2))
     else (Throw TypeError, w))
  ∧ (button_listener ∈ listeners (Variant1.onload w).2
     <-> has_button w ∨ button_listener ∈ listeners w)
  ∧ (NoDup (listeners w) -> NoDup (listeners (Variant1.onload w).2))
  ∧ listeners (Variant1.onload (Variant1.onload w).2).2
    = listeners (Variant1.onload w).2.
Proof.
  split; [apply Variant1_onload_closed|].
  rewrite !Variant1_onload_closed. unfold has_button.
  destruct (decide (is_Some (document w !! "new-game-btn"))) as [Hbtn|Hnone].
  - cbn [snd listeners document].
    split; [|split].
    + split; [by left|]. intros _. apply add_listener_elem.
    + apply add_listener_NoDup.
    + destruct (Variant1_newGame_frame w) as (_ & _ & _ & _ & Hothers & _).
      rewrite decide_True.
      * cbn [snd listeners]. apply add_listener_again.
      * rewrite Hothers; [done|].
        unfold slot_ids. rewrite !not_elem_of_cons. repeat split; try discriminate.
        apply not_elem_of_nil.
  - cbn [snd]. rewrite decide_False by done. cbn [snd].
    split; [|done]. split; [by right|]. by intros [Hbtn|Hin].
Qed.

Lemma onload_outcomes_witness :
  NoDup (listeners (Variant1.onload (fresh_world (const_source (1 # 4)) game_page)).2).
Proof.
  apply (onload_outcomes (fresh_world (const_source (1 # 4)) game_page)).
  apply NoDup_nil_2.
Defined.

(** The load handler run twice, then a click: three rounds, and still
    one listener. *)
Example reload_registers_once :
  (Variant1_run [Load; Load; Click "new-game-btn"]
     (fresh_world (const_source (1 # 4)) game_page)).1
  = [Normal; Normal; Normal]
  ∧ listeners (Variant1_run [Load; Load; Click "new-game-btn"]
                 (fresh_world (const_source (1 # 4)) game_page)).2
    = [button_listener]
  ∧ length (src_writes (Variant1_run [Load; Load; Click "new-game-btn"]
                          (fresh_world (const_source (1 # 4)) game_page)).2)
    = 12.
Proof. repeat split; by vm_compute. Qed.

(** ** A session: the load, then clicks *)

Lemma same_but_src_insert (el0 el : gmap string string) (path : string) :
  same_but_src el0 el -> <["src" := path]> el = <["src" := path]> el0.
Proof.
  intros Hel. apply map_eq. intros p.
  destruct (decide (p = "src")) as [->|Hp].
  - by rewrite !lookup_insert_eq.
  - rewrite !lookup_insert_ne by done. by apply Hel.
Qed.

Lemma up_to_src_refl (d : gmap string (gmap string string)) : up_to_src d d.
Proof. split; [intros id; apply option_same_but_src_refl|done]. Qed.

Lemma shows_up_to_src (d0 d : gmap string (gmap string string)) (cs : list card) :
  shows d0 d cs -> up_to_src d0 d.
Proof.
  intros [Hslots Hothers]. split; [|exact Hothers].
  intros id. destruct (decide (id ∈ slot_ids)) as [Hin|Hout].
  - apply list_elem_of_lookup in Hin as [i Hi].
    destruct (Forall2_lookup_l _ _ _ _ _ Hslots Hi) as (c & _ & ->).
    destruct (d0 !! id); constructor.
    apply same_but_src_insert_r, same_but_src_refl.
  - rewrite (Hothers id Hout). apply option_same_but_src_refl.
Qed.

Lemma up_to_src_has_slots (w0 w : world) :
  up_to_src (document w0) (document w) -> has_slots w0 -> has_slots w.
Proof.
  intros [Hrel _] Hs. unfold has_slots in *.
  eapply Forall_impl; [exact Hs|]. intros id [el Hel]. cbv beta.
  specialize (Hrel id). rewrite Hel in Hrel. inversion Hrel. by eexists.
Qed.

(** A round on a page that has the slots. *)
Lemma Variant1_round (d0 : gmap string (gmap string string)) (w : world) :
  has_slots w -> up_to_src d0 (document w) ->
  (Variant1.newGame w).1 = Normal
  ∧ random (Variant1.newGame w).2 = (Variant1.deck (random w)).2
  ∧ listeners (Variant1.newGame w).2 = listeners w
  ∧ console (Variant1.newGame w).2 = console w
  ∧ image_requests (Variant1.newGame w).2 = image_requests w
  ∧ src_writes (Variant1.newGame w).2
    = src_writes w ++ slot_writes "assets/pictures/" 0 (selected (random w))
  ∧ shows d0 (document (Variant1.newGame w).2) (selected (random w)).
Proof.
  intros Hslots [Hrel Hothers].
  destruct (selected_first_four (random w)) as (c1 & c2 & c3 & c4 & rest & _ & Hsel).
  rewrite (Variant1_newGame_run w c1 c2 c3 c4 Hslots Hsel), Hsel.
  cbn [fst snd random listeners console image_requests src_writes document].
  do 6 (split; [reflexivity|]).
  assert (Hfix : forall id path,
            insert "src" path <$> document w !! id = insert "src" path <$> d0 !! id).
  { intros id path. specialize (Hrel id).
    destruct Hrel as [el0 el Hel|]; [|done]. simpl. f_equal.
    by apply same_but_src_insert. }
  split.
  - unfold slot_ids. repeat constructor.
    + rewrite !lookup_alter_ne by discriminate. rewrite lookup_alter_eq. apply Hfix.
    + rewrite !lookup_alter_ne by discriminate. rewrite lookup_alter_eq.
      rewrite !lookup_alter_ne by discriminate. apply Hfix.
    + rewrite !lookup_alter_ne by discriminate. rewrite lookup_alter_eq.
      rewrite !lookup_alter_ne by discriminate. apply Hfix.
    + rewrite lookup_alter_eq. rewrite !lookup_alter_ne by discriminate. apply Hfix.
  - intros id Hid. rewrite <- (Hothers id Hid).
    unfold slot_ids in Hid.
    rewrite !not_elem_of_cons in Hid. destruct Hid as (? & ? & ? & ? & _).
    by rewrite !lookup_alter_ne by congruence.
Qed.

Lemma shown_after_step (n : nat) (s : random_source) (cs : list card) :
  shown_after n (Variant1.deck s).2 (selected s) = shown_after (S n) s cs.
Proof. by destruct n. Qed.

Lemma Variant1_run_cons (e : event) (es : list event) (w : world) :
  Variant1_run (e :: es) w
  = ((Variant1_handle e w).1 ++ (Variant1_run es (Variant1_handle e w).2).1,
     (Variant1_run es (Variant1_handle e w).2).2).
Proof.
  cbn [Variant1_run]. destruct (Variant1_handle e w) as [cs w1].
  cbn [fst snd]. by destruct (Variant1_run es w1).
Qed.

(** With the one listener registered, a click on the button is a round
    and a click anywhere else is nothing. *)
Lemma Variant1_handle_click_button (w : world) :
  listeners w = [button_listener] ->
  Variant1_handle (Click "new-game-btn") w
  = ([(Variant1.newGame w).1], (Variant1.newGame w).2).
Proof.
  intros Hls. cbn [Variant1_handle]. rewrite Hls. unfold button_listener.
  cbn [dispatch].
  destruct (decide ("new-game-btn" = "new-game-btn" ∧ "click" = "click"))
    as [_|Hn]; [|by destruct Hn].
  change (Variant1_call "newGame") with Variant1.newGame.
  by destruct (Variant1.newGame w).
Qed.

Lemma Variant1_handle_click_other (w : world) (id : string) :
  listeners w = [button_listener] -> id ≠ "new-game-btn" ->
  Variant1_handle (Click id) w = ([], w).
Proof.
  intros Hls Hne. cbn [Variant1_handle]. rewrite Hls. unfold button_listener.
  cbn [dispatch].
  destruct (decide ("new-game-btn" = id ∧ "click" = "click")) as [[Heq _]|_];
    [by destruct Hne|done].
Qed.

Lemma Variant1_round_has_slots (w : world) :
  has_slots w -> has_slots (Variant1.newGame w).2.
Proof.
  intros Hslots.
  destruct (Variant1_round (document w) w Hslots (up_to_src_refl _))
    as (_ & _ & _ & _ & _ & _ & Hsh).
  apply shows_up_to_src in Hsh. by apply (up_to_src_has_slots w).
Qed.

(** Clicks, once the listener is registered. *)
Lemma clicks_run (d0 : gmap string (gmap string string)) (ids : list string) :
  forall (w : world) (cs : list card),
    has_slots w -> listeners w = [button_listener] ->
    shows d0 (document w) cs ->
    (Variant1_run (Click <$> ids) w).1
    = replicate (length (filter (fun id => id = "new-game-btn") ids)) Normal
    ∧ listeners (Variant1_run (Click <$> ids) w).2 = [button_listener]
    ∧ console (Variant1_run (Click <$> ids) w).2 = console w
    ∧ image_requests (Variant1_run (Click <$> ids) w).2 = image_requests w
    ∧ random (Variant1_run (Click <$> ids) w).2
      = source_after (length (filter (fun id => id = "new-game-btn") ids)) (random w)
    ∧ src_writes (Variant1_run (Click <$> ids) w).2
      = src_writes w
        ++ concat (slot_writes "assets/pictures/" 0
                   <$> deals (length (filter (fun id => id = "new-game-btn") ids))
                         (random w))
    ∧ shows d0 (document (Variant1_run (Click <$> ids) w).2)
        (shown_after (length (filter (fun id => id = "new-game-btn") ids))
           (random w) cs).
Proof.
  induction ids as [|id ids IH]; intros w cs Hslots Hls Hshows.
  - cbn. rewrite app_nil_r. do 6 (split; [done|]). done.
  - rewrite fmap_cons, Variant1_run_cons, filter_cons.
    destruct (decide (id = "new-game-btn")) as [->|Hne].
    + rewrite (Variant1_handle_click_button w Hls). cbn [fst snd length].
      destruct (Variant1_round d0 w Hslots (shows_up_to_src _ _ _ Hshows))
        as (Hc & Hr & Hl & Hco & Him & Hw & Hsh).
      destruct (IH (Variant1.newGame w).2 (selected (random w))
                  (Variant1_round_has_slots w Hslots)
                  ltac:(by rewrite Hl) Hsh)
        as (IHc & IHl & IHco & IHim & IHr & IHw & IHsh).
      rewrite IHc, IHl, IHco, IHim, IHr, IHw, Hc, Hr, Hco, Him, Hw.
      split; [done|]. do 4 (split; [done|]). split.
      * cbn [deals fmap list_fmap concat]. by rewrite <- app_assoc.
      * rewrite Hr in IHsh. by rewrite <- (shown_after_step _ _ cs).
    + rewrite (Variant1_handle_click_other w id Hls Hne). cbn [fst snd app].
      by apply IH.
Qed.

(** X3: a session.  On a page that has the four slots and the button,
    after the load and any sequence of clicks, of which [n] on the
    button: nothing has thrown; exactly [n + 1] rounds have been dealt,
    each from the random source as the one before left it, and their
    assignments are recorded in order; the page shows the cards of the
    last round and differs from the page at the start in nothing else;
    the button still has its one listener, and nothing was logged or
    fetched. *)
Theorem session_of_rounds (w0 : world) (ids : list string) :
  has_slots w0 -> has_button w0 -> listeners w0 = [] ->
  (Variant1_run (Load :: (Click <$> ids)) w0).1
  = replicate (S (length (filter (fun id => id = "new-game-btn") ids))) Normal
  ∧ listeners (Variant1_run (Load :: (Click <$> ids)) w0).2 = [button_listener]
  ∧ console (Variant1_run (Load :: (Click <$> ids)) w0).2 = console w0
  ∧ image_requests (Variant1_run (Load :: (Click <$> ids)) w0).2 = image_requests w0
  ∧ random (Variant1_run (Load :: (Click <$> ids)) w0).2
    = source_after (S (length (filter (fun id => id = "new-game-btn") ids)))
        (random w0)
  ∧ src_writes (Variant1_run (Load :: (Click <$> ids)) w0).2
    = src_writes w0
      ++ concat (slot_writes "assets/pictures/" 0
                 <$> deals (S (length (filter (fun id => id = "new-game-btn") ids)))
                       (random w0))
  ∧ shows (document w0) (document (Variant1_run (Load :: (Click <$> ids)) w0).2)
      (selected (source_after (length (filter (fun id => id = "new-game-btn") ids))
                  (random w0))).
Proof.
  intros Hslots Hbutton Hls.
  rewrite Variant1_run_cons. cbn [Variant1_handle].
  assert (Hload : Variant1.onload w0
    = ((Variant1.newGame w0).1,
       World (random (Variant1.newGame w0).2) (document (Variant1.newGame w0).2)
             [button_listener] (console w0) (image_requests w0)
             (src_writes (Variant1.newGame w0).2))).
  { unfold Variant1.onload, sequence, addEventListener, getElementById.
    destruct Hbutton as [el Hel]. rewrite Hel, Hls.
    by rewrite !Variant1_newGame_closed. }
  rewrite Hload. cbn [fst snd].
  destruct (Variant1_round (document w0) w0 Hslots (up_to_src_refl _))
    as (Hc & Hr & Hl & Hco & Him & Hw & Hsh).
  set (w1 := World (random (Variant1.newGame w0).2)
                   (document (Variant1.newGame w0).2) [button_listener]
                   (console w0) (image_requests w0)
                   (src_writes (Variant1.newGame w0).2)).
  destruct (clicks_run (document w0) ids w1 (selected (random w0)))
    as (IHc & IHl & IHco & IHim & IHr & IHw & IHsh); [|done|done|].
  { apply (up_to_src_has_slots w0); [|done].
    by apply (shows_up_to_src _ _ (selected (random w0))). }
  change (random w1) with (random (Variant1.newGame w0).2) in IHr, IHw, IHsh.
  change (src_writes w1) with (src_writes (Variant1.newGame w0).2) in IHw.
  change (console w1) with (console w0) in IHco.
  change (image_requests w1) with (image_requests w0) in IHim.
  rewrite Hr in IHr, IHw, IHsh. rewrite Hw in IHw.
  rewrite IHc, IHl, IHco, IHim, IHr, IHw, Hc.
  split; [done|]. do 4 (split; [done|]). split.
  - cbn [deals fmap list_fmap concat]. by rewrite <- app_assoc.
  - rewrite (shown_after_step _ _ []) in IHsh. exact IHsh.
Qed.

Lemma session_of_rounds_witness :
  (Variant1_run (Load :: (Click <$> ["new-game-btn"; "card1"; "new-game-btn"]))
     (fresh_world (const_source (1 # 4)) game_page)).1
  = [Normal; Normal; Normal]
  ∧ length (src_writes
              (Variant1_run (Load :: (Click <$> ["new-game-btn"; "card1"; "new-game-btn"]))
                 (fresh_world (const_source (1 # 4)) game_page)).2)
    = 12.
Proof.
  destruct (session_of_rounds (fresh_world (const_source (1 # 4)) game_page)
              ["new-game-btn"; "card1"; "new-game-btn"])
    as (Hc & _ & _ & _ & _ & Hw & _).
  - unfold has_slots. apply (bool_decide_unpack _). vm_compute. exact I.
  - unfold has_button. apply (bool_decide_unpack _). vm_compute. exact I.
  - reflexivity.
  - split; [exact Hc|]. rewrite Hw. by vm_compute.
Defined.

(** ** Asset names *)

Lemma append_length (s t : string) :
  String.length (s +:+ t) = String.length s + String.length t.
Proof.
  induction s as [|a s IH]; [done|].
  change (String a s +:+ t) with (String a (s +:+ t)).
  cbn [String.length]. by rewrite IH.
Qed.

Lemma append_inj_l (s t1 t2 : string) : s +:+ t1 = s +:+ t2 -> t1 = t2.
Proof.
  induction s as [|a s IH]; [done|].
  change (String a (s +:+ t1) = String a (s +:+ t2) -> t1 = t2).
  intros [= Heq]. by apply IH.
Qed.

(** Two concatenations with tails of the same length agree part by
    part. *)
Lemma append_inj_length (r1 r2 t1 t2 : string) :
  String.length t1 = String.length t2 ->
  r1 +:+ t1 = r2 +:+ t2 -> r1 = r2 ∧ t1 = t2.
Proof.
  intros Hlen. revert r2. induction r1 as [|a r1 IH]; intros [|b r2] Heq.
  - done.
  - exfalso. apply (f_equal String.length) in Heq.
    change (EmptyString +:+ t1) with t1 in Heq.
    change (String b r2 +:+ t2) with (String b (r2 +:+ t2)) in Heq.
    cbn [String.length] in Heq. rewrite append_length in Heq. lia.
  - exfalso. apply (f_equal String.length) in Heq.
    change (EmptyString +:+ t2) with t2 in Heq.
    change (String a r1 +:+ t1) with (String a (r1 +:+ t1)) in Heq.
    cbn [String.length] in Heq. rewrite append_length in Heq. lia.
  - change (String a (r1 +:+ t1) = String b (r2 +:+ t2)) in Heq.
    injection Heq as -> Heq. destruct (IH _ Heq) as [-> ->]. done.
Qed.

(** X5: the name [`${value}${suitCode}.png`] tells the rank and the
    suit code apart as long as suit codes have one length, as the four
    one-letter codes of the script do: two such names are equal only
    for the same rank and the same suit code. *)
Theorem asset_name_injective (rank1 suit1 rank2 suit2 : string) :
  String.length suit1 = String.length suit2 ->
  template [rank1; suit1; ".png"] = template [rank2; suit2; ".png"] ->
  rank1 = rank2 ∧ suit1 = suit2.
Proof.
  intros Hlen Heq. cbn [template foldr] in Heq.
  apply append_inj_length in Heq as [-> Heq].
  - split; [done|]. by apply append_inj_length in Heq as [-> _].
  - rewrite !append_length. by rewrite Hlen.
Qed.

Lemma asset_name_injective_witness :
  "10" = "10" ∧ "H" = "H".
Proof.
  apply (asset_name_injective "10" "H" "10" "H"); reflexivity.
Defined.

(** Without the condition on the lengths names can collide. *)
Example asset_name_collision :
  template ["1"; "0H"; ".png"] = template ["10"; "H"; ".png"].
Proof. reflexivity. Qed.

Lemma fresh_deck_fileName_NoDup : NoDup (fileName <$> Variant1.fresh_deck).
Proof. apply (bool_decide_unpack _). by vm_compute. Qed.

Lemma selected_fileName_NoDup (s : random_source) : NoDup (fileName <$> selected s).
Proof.
  unfold selected, Array_slice. rewrite drop_0, fmap_take.
  eapply sublist_NoDup; [|apply sublist_take].
  rewrite (deck_Permutation s). apply fresh_deck_fileName_NoDup.
Qed.

Lemma srcs_on_show_round (w : world) :
  has_slots w ->
  srcs_on_show (document (Variant1.newGame w).2)
  = (fun c => Some ("assets/pictures/" +:+ fileName c)) <$> selected (random w).
Proof.
  intros Hslots.
  destruct (Variant1_round (document w) w Hslots (up_to_src_refl _))
    as (_ & _ & _ & _ & _ & _ & [Hsh _]).
  destruct (selected_first_four (random w)) as (c1 & c2 & c3 & c4 & rest & _ & Hsel).
  rewrite Hsel in Hsh |- *.
  destruct (has_slots_elim w Hslots) as ([e1 H1] & [e2 H2] & [e3 H3] & [e4 H4]).
  unfold slot_ids in Hsh.
  apply Forall2_cons in Hsh as [G1 Hsh]. apply Forall2_cons in Hsh as [G2 Hsh].
  apply Forall2_cons in Hsh as [G3 Hsh]. apply Forall2_cons in Hsh as [G4 _].
  rewrite H1 in G1. rewrite H2 in G2. rewrite H3 in G3. rewrite H4 in G4.
  unfold srcs_on_show, slot_ids. cbn [fmap list_fmap].
  rewrite G1, G2, G3, G4. cbn [fmap option_fmap option_map mbind option_bind].
  by rewrite !lookup_insert_eq.
Qed.

(** X4: after a round on a page that has the four slots, the slots
    hold four image paths, no two of them the same, each
    [assets/pictures/] followed by the file name of the card shown
    there. *)
Theorem four_distinct_images (w : world) :
  has_slots w ->
  srcs_on_show (document (Variant1.newGame w).2)
  = (fun c => Some ("assets/pictures/" +:+ fileName c)) <$> selected (random w)
  ∧ length (srcs_on_show (document (Variant1.newGame w).2)) = 4
  ∧ NoDup (srcs_on_show (document (Variant1.newGame w).2)).
Proof.
  intros Hslots. rewrite (srcs_on_show_round w Hslots).
  split; [done|]. split.
  - rewrite length_fmap.
    by destruct (selected_first_four (random w)) as (c1 & c2 & c3 & c4 & rest & _ & ->).
  - rewrite (list_fmap_compose fileName (fun f => Some ("assets/pictures/" +:+ f))).
    apply NoDup_fmap_2; [|apply selected_fileName_NoDup].
    intros f1 f2 [= Heq]. by apply append_inj_l in Heq.
Qed.

Lemma four_distinct_images_witness :
  NoDup (srcs_on_show
           (document (Variant1.newGame (fresh_world (const_source (1 # 4)) game_page)).2)).
Proof.
  apply (four_distinct_images (fresh_world (const_source (1 # 4)) game_page)).
  apply fresh_world_has_slots.
Defined.

(** ** Random sources that stay on one side of one half *)

Lemma Variant1_comparefn_eq (a b : card) (s : random_source) :
  Variant1.comparefn a b s = ((s 0%nat - (1 # 2))%Q, advance s).
Proof. reflexivity. Qed.

Lemma CountAndMakeRun_loop_one_sided (array : list card) (high : nat) (b : bool) :
  forall fuel previousElement idx runLength (s : random_source),
    (forall n, n < fuel -> below_half (s n) = b) ->
    idx + fuel = high ->
    CountAndMakeRun_loop Variant1.comparefn fuel b array previousElement idx high
      runLength s
    = (runLength + fuel, fun n => s (fuel + n)).
Proof.
  induction fuel as [|fuel IH]; intros prev idx rl s Hs Hidx.
  - cbn [CountAndMakeRun_loop]. by rewrite Nat.add_0_r.
  - cbn [CountAndMakeRun_loop].
    destruct (Nat.ltb_spec idx high) as [_|Hge]; [|lia].
    unfold Variant1.comparefn. rand_unfold. cbn [Math_random fst snd].
    pose proof (Hs 0 ltac:(lia)) as H0. unfold below_half in H0.
    rewrite H0.
    assert (Hnext : CountAndMakeRun_loop Variant1.comparefn fuel b array
                      (array !!! idx) (idx + 1) high (rl + 1) (advance s)
                    = (rl + S fuel, fun n => s (S fuel + n))).
    { rewrite (IH _ _ _ (advance s)); [|intros n Hn; apply (Hs (S n)); lia|lia].
      unfold advance. f_equal. lia. }
    destruct b; exact Hnext.
Qed.

Lemma ReverseRange_fresh_deck :
  ReverseRange Variant1.fresh_deck 0 52 = reverse Variant1.fresh_deck.
Proof. by vm_compute. Qed.

(** X6: when the first 51 values of the random source all fall on the
    same side of one half the shuffle reads exactly those 51 and does
    not mix the deck: it is left as built when they are at or above one
    half, and exactly reversed when they are below. *)
Theorem one_sided_source (s : random_source) (b : bool) :
  (forall n, n < 51 -> below_half (s n) = b) ->
  Variant1.deck s
  = (if b then reverse Variant1.fresh_deck else Variant1.fresh_deck,
     fun n => s (51 + n))
  ∧ fileName <$> selected s
    = if b then ["KS.png"; "KC.png"; "KD.png"; "KH.png"]
      else ["AH.png"; "AD.png"; "AC.png"; "AS.png"].
Proof.
  intros Hs.
  assert (Hdeck : Variant1.deck s
                  = (if b then reverse Variant1.fresh_deck else Variant1.fresh_deck,
                     fun n => s (51 + n))).
  { unfold Variant1.deck, Array_sort, ArrayTimSortImpl, CountAndMakeRun.
    rewrite fresh_deck_length.
    change (ComputeMinRunLength 52) with 52.
    change (52 <? 2) with false. change (0 + 1 =? 0 + 52) with false.
    change (0 + 52 - (0 + 1 + 1)) with 50. change (0 + 1 + 1) with 2.
    change (0 + 52) with 52. change (0 + 1 - 1) with 0. change (0 + 1) with 1.
    change (52 `min` 52) with 52.
    rand_unfold. rewrite Variant1_comparefn_eq.
    pose proof (Hs 0 ltac:(lia)) as H0. unfold below_half in H0. rewrite H0.
    rewrite (CountAndMakeRun_loop_one_sided Variant1.fresh_deck 52 b 50 _ 2 2 (advance s));
      [|intros n Hn; apply (Hs (S n)); lia|done].
    change (2 + 50 <? 52) with false.
    destruct b; cbv iota; [|done].
    change (0 + (2 + 50)) with 52. by rewrite ReverseRange_fresh_deck. }
  split; [exact Hdeck|].
  unfold selected. rewrite Hdeck. by destruct b.
Qed.

Lemma one_sided_source_witness :
  fileName <$> selected (const_source (3 # 4))
  = ["AH.png"; "AD.png"; "AC.png"; "AS.png"].
Proof.
  apply (one_sided_source (const_source (3 # 4)) false). intros n _. reflexivity.
Defined.

(** ** What a round reads of the random source *)

(** X7: the shuffle looks at a random number only to see on which side
    of one half it falls, and at no more than the first 2703: two
    sources that agree on those sides shuffle the deck alike, in both
    versions, and so show the same four cards. *)
Theorem shuffle_reads_signs (s1 s2 : random_source) :
  same_signs_for (51 * 53) s1 s2 ->
  (Variant1.deck s1).1 = (Variant1.deck s2).1
  ∧ (Variant2.deck s1).1 = (Variant2.deck s2).1
  ∧ selected s1 = selected s2.
Proof.
  intros Hs. pose proof (deck_same_signs s1 s2 Hs) as Hdeck.
  split; [exact Hdeck|]. split; [exact Hdeck|].
  unfold selected. by rewrite Hdeck.
Qed.

Lemma shuffle_reads_signs_witness :
  selected (const_source (1 # 4)) = selected (const_source (1 # 8)).
Proof.
  apply (shuffle_reads_signs (const_source (1 # 4)) (const_source (1 # 8))).
  intros n _. reflexivity.
Defined.

(** ** The second version *)

Lemma Variant2_diagnostics_eq (w : world) :
  Variant2.diagnostics w
  = (Normal,
     World (random w) (document w) (listeners w)
           (console w ++ ["Testing image paths:"])
           (image_requests w
            ++ ["assets/pictures/AC.png"; "assets/pictures/AD.png";
                "assets/pictures/AH.png"; "assets/pictures/AS.png"])
           (src_writes w)).
Proof.
  unfold Variant2.diagnostics, sequence, console_log, Array_forEach. cbn.
  by rewrite <- !app_assoc.
Qed.

Lemma Variant2_newGame_closed (w : world) :
  Variant2.newGame w
  = (if decide (leading_present (document w) slot_ids = 4)
     then Normal else Throw TypeError,
     World (Variant2.deck (random w)).2
           (set_srcs (take (leading_present (document w) slot_ids)
                        (slot_writes "assets/pictures/classic/" 0 (selected (random w))))
                     (document w))
           (listeners w) (console w) (image_requests w)
           (src_writes w
            ++ take (leading_present (document w) slot_ids)
                 (slot_writes "assets/pictures/classic/" 0 (selected (random w))))).
Proof.
  destruct (selected_first_four (random w)) as (c1 & c2 & c3 & c4 & rest & _ & Hsel).
  rewrite Variant2_newGame_eq, assign_all_leading.
  cbn [document random listeners console image_requests src_writes].
  by rewrite Hsel, slot_writes_ids_four.
Qed.



Lemma slot_writes_path (base : string) (cards : list card) (x : string * string) :
  x ∈ slot_writes base 0 cards -> exists c, c ∈ cards ∧ x.2 = base +:+ fileName c.
Proof.
  unfold slot_writes. intros Hx.
  apply elem_of_lookup_imap_1 in Hx as (i & c & -> & Hc).
  exists c. split; [by apply list_elem_of_lookup_2 in Hc|done].
Qed.

(** X9: the probe tests another directory than the one the second
    version shows its cards from.  Each path the probe requests is the
    path the first version assigns for one of the four aces, and no
    round of the second version, on any page and with any random
    source, assigns a path the probe requested. *)
Theorem probe_checks_another_directory (w w' : world) (path : string)
    (x : string * string) :
  path ∈ drop (length (image_requests w)) (image_requests (Variant2.diagnostics w).2) ->
  x ∈ drop (length (src_writes w')) (src_writes (Variant2.newGame w').2) ->
  path ∈ (fun c => "assets/pictures/" +:+ fileName c) <$> take 4 Variant1.fresh_deck
  ∧ path ≠ x.2.
Proof.
  rewrite Variant2_diagnostics_eq, Variant2_newGame_closed.
  cbn [snd image_requests src_writes]. rewrite !drop_app_length.
  intros Hpath Hx.
  apply elem_of_take in Hx as (i & Hx & _). apply list_elem_of_lookup_2 in Hx.
  apply slot_writes_path in Hx as (c & _ & ->).
  rewrite !elem_of_cons in Hpath.
  destruct Hpath as [->|[->|[->|[->|Hnil]]]];
    [| | | |by apply elem_of_nil in Hnil];
    (split;
     [apply (bool_decide_unpack _); by vm_compute
     |intros Heq; vm_compute in Heq; discriminate Heq]).
Qed.

Lemma probe_checks_another_directory_witness :
  "assets/pictures/AC.png" ≠ "assets/pictures/classic/KS.png".
Proof.
  apply (probe_checks_another_directory
           (fresh_world (const_source (1 # 4)) game_page)
           (fresh_world (const_source (1 # 4)) game_page)
           "assets/pictures/AC.png" ("card1", "assets/pictures/classic/KS.png")).
  - apply (bool_decide_unpack _). by vm_compute.
  - apply (bool_decide_unpack _). by vm_compute.
Defined.

(** ** Every card in every slot *)

Lemma slot_draws_slot :
  Forall (fun k =>
            Forall (fun i => selected (coin_source (bits_of_list (slot_draws k i))) !! i
                             = Some (Variant1.fresh_deck !!! k))
                   (seq 0 4))
         (seq 0 52).
Proof. apply (bool_decide_unpack _). by vm_compute. Qed.

(** X10: every card of the deck can turn up in every slot: for each of
    the 52 cards and each of the four positions there is a random
    source whose shuffle puts the card there, and a round run with it
    on a page that has the slots shows the card's image in that
    slot. *)
Theorem any_card_in_any_slot (c : card) (i : nat) :
  c ∈ Variant1.fresh_deck -> i < 4 ->
  exists s : random_source,
    selected s !! i = Some c
    ∧ forall w, random w = s -> has_slots w ->
        srcs_on_show (document (Variant1.newGame w).2) !! i
        = Some (Some ("assets/pictures/" +:+ fileName c)).
Proof.
  intros Hc Hi. apply list_elem_of_lookup in Hc as [k Hk].
  assert (Hlt : k < 52).
  { apply lookup_lt_Some in Hk. by rewrite fresh_deck_length in Hk. }
  pose proof (proj1 (Forall_forall _ _) slot_draws_slot k) as Hrow.
  cbv beta in Hrow.
  pose proof (proj1 (Forall_forall _ _) (Hrow ltac:(apply elem_of_seq; lia)) i)
    as Hcell.
  cbv beta in Hcell. rewrite (list_lookup_total_correct _ _ _ Hk) in Hcell.
  exists (coin_source (bits_of_list (slot_draws k i))).
  assert (Hsel : selected (coin_source (bits_of_list (slot_draws k i))) !! i = Some c).
  { apply Hcell. apply elem_of_seq. lia. }
  split; [exact Hsel|].
  intros w Hw Hslots. rewrite (srcs_on_show_round w Hslots), Hw.
  by rewrite list_lookup_fmap, Hsel.
Qed.

Lemma any_card_in_any_slot_witness :
  exists s : random_source,
    selected s !! 2 = Some (Card "7" "C" "7C.png")
    ∧ forall w, random w = s -> has_slots w ->
        srcs_on_show (document (Variant1.newGame w).2) !! 2
        = Some (Some ("assets/pictures/" +:+ fileName (Card "7" "C" "7C.png"))).
Proof.
  apply (any_card_in_any_slot (Card "7" "C" "7C.png") 2); [|lia].
  apply (bool_decide_unpack _). by vm_compute.
Defined.

(** ** The calls a shuffle makes *)

Lemma BinaryInsertionSort_search_counted fuel (array : list card) (pivot : card) :
  forall left right,
    counted (BinaryInsertionSort_search Variant1.comparefn fuel array pivot left right)
      (fun _ k => search_calls false fuel left right <= k
                  <= search_calls true fuel left right).
Proof.
  induction fuel as [|fuel IH]; intros left right s.
  - exists 0. split; [cbn [search_calls]; lia|done].
  - cbn [BinaryInsertionSort_search search_calls].
    destruct (left <? right); [|exists 0; split; [lia|done]].
    rand_unfold. rewrite Variant1_comparefn_eq.
    destruct (is_negative _).
    + destruct (IH left (left + Nat.shiftr (right - left) 1) (advance s))
        as (k & Hk & Hs).
      exists (S k). split; [lia|]. intros n. by rewrite Hs.
    + destruct (IH (left + Nat.shiftr (right - left) 1 + 1) right (advance s))
        as (k & Hk & Hs).
      exists (S k). split; [lia|]. intros n. by rewrite Hs.
Qed.

Lemma BinaryInsertionSort_loop_counted fuel (low high : nat) :
  forall (array : list card) start,
    counted (BinaryInsertionSort_loop Variant1.comparefn fuel array low start high)
      (fun _ k => insertion_calls false fuel low start high <= k
                  <= insertion_calls true fuel low start high).
Proof.
  induction fuel as [|fuel IH]; intros array start s.
  - exists 0. split; [cbn [insertion_calls]; lia|done].
  - cbn [BinaryInsertionSort_loop insertion_calls].
    destruct (start <? high); [|exists 0; split; [lia|done]].
    rand_unfold.
    destruct (BinaryInsertionSort_search_counted (start - low) array
                (array !!! start) low start s) as (k1 & Hk1 & Hs1).
    destruct (BinaryInsertionSort_search Variant1.comparefn (start - low) array
                (array !!! start) low start s) as [left s1].
    cbn [fst snd] in Hk1, Hs1.
    destruct (IH (<[left := array !!! start]>
                    (BinaryInsertionSort_shift (start - left) array start left))
                 (start + 1) s1) as (k2 & Hk2 & Hs2).
    exists (k1 + k2). split; [lia|].
    intros n. rewrite Hs2, Hs1. f_equal. lia.
Qed.

(** The scan makes one call for each card it adds to the run, and one
    more when it stops before the end. *)
Lemma CountAndMakeRun_loop_counted (array : list card) (high : nat) (isDescending : bool) :
  forall fuel previousElement idx runLength,
    idx + fuel = high ->
    counted (CountAndMakeRun_loop Variant1.comparefn fuel isDescending array
               previousElement idx high runLength)
      (fun runLength' k =>
         (runLength' = runLength + fuel ∧ k = fuel)
         ∨ (runLength <= runLength' < runLength + fuel
            ∧ k = runLength' - runLength + 1)).
Proof.
  induction fuel as [|fuel IH]; intros prev idx rl Hidx s.
  - exists 0. split; [left; cbn; lia|done].
  - cbn [CountAndMakeRun_loop].
    destruct (Nat.ltb_spec idx high) as [_|Hge]; [|lia].
    rand_unfold. rewrite Variant1_comparefn_eq.
    destruct (IH (array !!! idx) (idx + 1) (rl + 1) ltac:(lia) (advance s))
      as (k & Hk & Hs).
    assert (Hgo : exists k',
              (((CountAndMakeRun_loop Variant1.comparefn fuel isDescending array
                   (array !!! idx) (idx + 1) high (rl + 1) (advance s)).1
                = rl + S fuel ∧ k' = S fuel)
               ∨ (rl <= (CountAndMakeRun_loop Variant1.comparefn fuel isDescending
                           array (array !!! idx) (idx + 1) high (rl + 1)
                           (advance s)).1 < rl + S fuel
                  ∧ k' = (CountAndMakeRun_loop Variant1.comparefn fuel isDescending
                            array (array !!! idx) (idx + 1) high (rl + 1)
                            (advance s)).1 - rl + 1))
              ∧ forall n,
                  (CountAndMakeRun_loop Variant1.comparefn fuel isDescending array
                     (array !!! idx) (idx + 1) high (rl + 1) (advance s)).2 n
                  = s (k' + n)).
    { exists (S k). split; [lia|]. intros n. by rewrite Hs. }
    assert (Hstop : exists k',
              ((rl = rl + S fuel ∧ k' = S fuel)
               ∨ (rl <= rl < rl + S fuel ∧ k' = rl - rl + 1))
              ∧ forall n, advance s n = s (k' + n)).
    { exists 1. split; [right; lia|done]. }
    destruct isDescending, (is_negative _); cbn [negb]; done.
Qed.

Lemma shuffle_calls_bounds :
  Forall (fun runLength => 51 <= shuffle_calls false runLength
                           ∧ shuffle_calls true runLength <= 250)
         (seq 2 51).
Proof. apply (bool_decide_unpack _). by vm_compute. Qed.

(** A shuffle makes between 51 and 250 calls. *)
Lemma deck_counted : counted Variant1.deck (fun _ k => 51 <= k <= 250).
Proof.
  intros s.
  unfold Variant1.deck, Array_sort, ArrayTimSortImpl, CountAndMakeRun.
  rewrite fresh_deck_length.
  change (ComputeMinRunLength 52) with 52.
  change (52 <? 2) with false. change (0 + 1 =? 0 + 52) with false.
  change (0 + 52 - (0 + 1 + 1)) with 50. change (0 + 1 + 1) with 2.
  change (0 + 52) with 52. change (0 + 1 - 1) with 0. change (0 + 1) with 1.
  change (52 `min` 52) with 52.
  rand_unfold. rewrite Variant1_comparefn_eq.
  destruct (CountAndMakeRun_loop_counted Variant1.fresh_deck 52
              (is_negative (s 0 - (1 # 2))) 50 (Variant1.fresh_deck !!! 1) 2 2
              ltac:(done) (advance s)) as (k1 & Hk1 & Hs1).
  destruct (CountAndMakeRun_loop Variant1.comparefn 50 _ _ _ _ _ _ (advance s))
    as [runLength s1].
  cbn [fst snd] in Hk1, Hs1.
  set (array := if is_negative (s 0 - (1 # 2))
                then ReverseRange Variant1.fresh_deck 0 (0 + runLength)
                else Variant1.fresh_deck).
  assert (Hgoal : exists k, 51 <= k <= 250
            ∧ forall n,
                ((if runLength <? 52
                  then BinaryInsertionSort Variant1.comparefn array 0 (0 + runLength) 52
                  else fun s0 => (array, s0)) s1).2 n = s (k + n)).
  { destruct Hk1 as [[-> ->]|[Hrl ->]].
    - exists 51. split; [lia|]. intros n. cbn [Nat.ltb Nat.leb Nat.add snd].
      by rewrite Hs1.
    - destruct (Nat.ltb_spec runLength 52) as [Hlt|Hge]; [|lia].
      unfold BinaryInsertionSort. change (0 + runLength) with runLength.
      destruct (Nat.eqb_spec 0 runLength) as [H0|_]; [lia|].
      destruct (BinaryInsertionSort_loop_counted (52 - runLength) 0 52 array
                  runLength s1) as (k2 & Hk2 & Hs2).
      pose proof (proj1 (Forall_forall _ _) shuffle_calls_bounds runLength
                    ltac:(apply elem_of_seq; lia)) as Hb.
      cbv beta in Hb. unfold shuffle_calls in Hb.
      destruct (Nat.ltb_spec runLength 52) as [_|Hge] in Hb; [|lia].
      exists (S (runLength - 2 + 1 + k2)). split; [lia|].
      intros n. rewrite Hs2, Hs1. unfold advance. f_equal. lia. }
  destruct Hgoal as (k & Hk & Hs). exists k. split; [exact Hk|].
  intros n. rewrite <- Hs. by destruct (is_negative _).
Qed.

Lemma tagged_same_signs (s : random_source) (n : nat) :
  below_half (tagged s n) = below_half (s n).
Proof.
  unfold tagged. destruct (below_half (s n)); unfold below_half, is_negative.
  - destruct (Qle_bool _ _) eqn:Hle; [|done].
    apply Qle_bool_iff in Hle.
    unfold Qle, Qminus, Qplus, Qopp, inject_Z in Hle. cbn [Qnum Qden] in Hle. lia.
  - destruct (Qle_bool _ _) eqn:Hle; [done|].
    assert (Hge : (0 <= inject_Z (Z.of_nat n + 1) - (1 # 2))%Q).
    { unfold Qle, Qminus, Qplus, Qopp, inject_Z. cbn [Qnum Qden]. lia. }
    apply Qle_bool_iff in Hge. congruence.
Qed.

Lemma tagged_inj (s : random_source) (j k : nat) :
  tagged s j = tagged s k -> j = k.
Proof.
  unfold tagged, inject_Z.
  destruct (below_half (s j)), (below_half (s k)); intros [= Heq]; lia.
Qed.

(** Two sources that fall on the same sides of one half are advanced
    alike by a shuffle. *)
Lemma deck_calls_agree (s1 s2 : random_source) :
  same_signs_for (51 * 53) s1 s2 ->
  exists j, (forall n, (Variant1.deck s1).2 n = s1 (j + n))
            ∧ (forall n, (Variant1.deck s2).2 n = s2 (j + n)).
Proof.
  intros Hs.
  pose (R := fun (c : nat) (a b : random_source) =>
               same_signs_for c a b
               ∧ exists j, (forall n, a n = s1 (j + n)) ∧ (forall n, b n = s2 (j + n))).
  assert (R_mono : forall k j a b, k <= j -> R j a b -> R k a b).
  { intros k j a b Hkj [Hab Hj]. split; [by apply (same_signs_for_mono k j)|done]. }
  assert (comparefn_R : forall (x y : card) k a b, R (S k) a b ->
            is_negative (Variant1.comparefn x y a).1
            = is_negative (Variant1.comparefn x y b).1
            ∧ R k (Variant1.comparefn x y a).2 (Variant1.comparefn x y b).2).
  { intros x y k a b [Hab (j & Ha & Hb)].
    destruct (Variant1_comparefn_same_signs x y k a b Hab) as [Hsign Hnext].
    split; [exact Hsign|]. split; [exact Hnext|].
    exists (S j). rewrite !Variant1_comparefn_eq. cbn [snd]. unfold advance.
    split; intros n.
    - rewrite Ha. f_equal. lia.
    - rewrite Hb. f_equal. lia. }
  destruct (Array_sort_agree Variant1.comparefn R R_mono comparefn_R
              Variant1.fresh_deck 0 s1 s2) as [_ [_ Hj]].
  - rewrite Nat.add_0_r. split; [exact Hs|]. by exists 0.
  - exact Hj.
Qed.

Lemma same_signs_for_tagged (k : nat) (s s' : random_source) :
  same_signs_for k s s' -> same_signs_for k (tagged s) s'.
Proof. intros Hs n Hn. rewrite tagged_same_signs. by apply Hs. Qed.

(** The number of calls a shuffle makes on the sources that fall on the
    same sides of one half as [s]. *)
Lemma deck_calls (s : random_source) :
  exists k, 51 <= k <= 250
    ∧ (Variant1.deck (tagged s)).2 0 = tagged s k
    ∧ forall s', same_signs_for (51 * 53) s s' ->
        forall n, (Variant1.deck s').2 n = s' (k + n).
Proof.
  destruct (deck_counted (tagged s)) as (k & Hk & Hread).
  exists k. split; [exact Hk|]. split; [by rewrite Hread, Nat.add_0_r|].
  intros s' Hs'.
  destruct (deck_calls_agree (tagged s) s' (same_signs_for_tagged _ _ _ Hs'))
    as (j & Hj & Hj').
  assert (j = k) as ->; [|exact Hj'].
  apply (tagged_inj s). specialize (Hj 0). specialize (Hread 0).
  rewrite !Nat.add_0_r in *. congruence.
Qed.

(** X11: a shuffle calls [Math.random] at least 51 and at most 250
    times, a number fixed by the sides of one half on which the values
    fall: every source that falls on the same sides as [s] is left by
    the shuffle the same number of values on.  Both bounds are reached:
    51 calls when every value is at or above one half, 250 when the
    first is and the others are below. *)
Theorem calls_per_shuffle :
  (forall s, exists k, 51 <= k <= 250
     ∧ forall s', same_signs_for (51 * 53) s s' ->
         forall n, (Variant1.deck s').2 n = s' (k + n))
  ∧ (forall s', same_signs_for (51 * 53) (const_source (3 # 4)) s' ->
       forall n, (Variant1.deck s').2 n = s' (51 + n))
  ∧ (forall s', same_signs_for (51 * 53) late_low_source s' ->
       forall n, (Variant1.deck s').2 n = s' (250 + n)).
Proof.
  split; [|split].
  - intros s. destruct (deck_calls s) as (k & Hk & _ & Hs). by exists k.
  - destruct (deck_calls (const_source (3 # 4))) as (k & _ & Htag & Hs).
    assert (k = 51) as ->; [|exact Hs].
    symmetry. apply (tagged_inj (const_source (3 # 4))).
    rewrite <- Htag. by vm_compute.
  - destruct (deck_calls late_low_source) as (k & _ & Htag & Hs).
    assert (k = 250) as ->; [|exact Hs].
    symmetry. apply (tagged_inj late_low_source).
    rewrite <- Htag. by vm_compute.
Qed.

Lemma calls_per_shuffle_witness :
  (Variant1.deck (const_source (7 # 8))).2 0 = const_source (7 # 8) 51.
Proof.
  apply (proj1 (proj2 calls_per_shuffle) (const_source (7 # 8))).
  intros n _. reflexivity.
Defined.
